(** * Sorting engines of Lesson_3_3_git: bubble sort and merge sort

    The development embeds [bubble_sort.py], [merge_sort.py] and
    [password_generator.py].

    - Part I is the value-level model: a Python list is a [list A], an
      index access that would raise [IndexError] yields [None], a [for]
      loop over a [range] is a fold over the list of its indices, a
      [while] loop and the recursion of [merge_sort] are defined by
      well-founded recursion, and what the traced variants print is
      returned as a list of structured lines.
    - Part II is the store-level model used for the aliasing questions:
      lists live in a store and are handled through references.
    - [password_generator.py] is embedded with its random source as a
      parameter: a draw takes a bound and the state of the source and
      returns a number and the next state. *)

From Stdlib Require Import Floats.PrimFloat.
From Stdlib Require Import ZArith Sorting.Sorted Ascii String.
From Equations Require Import Equations.
From stdpp Require Import base numbers option strings list.

Set Default Proof Using "Type*".

(** ** Python's rich comparisons *)

(** The four operators the two modules apply to list elements:
    [<], [>], [<=] and [>=].  The elements of one list are taken to be
    mutually comparable, so each operator is a total boolean function. *)
Class Cmp (A : Type) := {
  py_lt : A → A → bool;
  py_gt : A → A → bool;
  py_le : A → A → bool;
  py_ge : A → A → bool
}.

(** A totally ordered element type: [<=] is total and transitive and the
    other three operators are derived from it in the usual way.  Two
    elements may compare equal without being the same value (a total
    preorder), which is what makes stability observable. *)
Class TotalCmp (A : Type) `{Cmp A} : Prop := {
  py_le_total : ∀ x y : A, py_le x y = true ∨ py_le y x = true;
  py_le_trans : ∀ x y z : A,
      py_le x y = true → py_le y z = true → py_le x z = true;
  py_lt_le : ∀ x y : A, py_lt x y = negb (py_le y x);
  py_gt_lt : ∀ x y : A, py_gt x y = py_lt y x;
  py_ge_le : ∀ x y : A, py_ge x y = py_le y x
}.

(** Integers, the element type of the command-line demonstrations. *)
#[export] Instance Z_cmp : Cmp Z :=
  {| py_lt := Z.ltb; py_gt := Z.gtb; py_le := Z.leb; py_ge := Z.geb |}.

(** Python floats, the element type the command lines parse [--list]
    into ([type=float]): IEEE 754 binary64 numbers, compared as the
    processor compares them.  Every comparison with [nan] is false. *)
#[export] Instance float_cmp : Cmp float :=
  {| py_lt := PrimFloat.ltb;
     py_gt := λ x y, PrimFloat.ltb y x;
     py_le := PrimFloat.leb;
     py_ge := λ x y, PrimFloat.leb y x |}.

(** Elements tagged with a natural number (their original position) and
    compared on the key alone. *)
#[export] Instance tagged_cmp {A} `{Cmp A} : Cmp (A * nat) :=
  {| py_lt := λ x y, py_lt x.1 y.1;
     py_gt := λ x y, py_gt x.1 y.1;
     py_le := λ x y, py_le x.1 y.1;
     py_ge := λ x y, py_ge x.1 y.1 |}.

(** ** Lists as Python uses them *)

Section PyList.
Context {A : Type}.

(** [l[i]] for [i >= 0]; [None] stands for [IndexError]. *)
Definition getitem (l : list A) (i : nat) : option A := l !! i.

(** [l[i] = v] for [i >= 0]; [None] stands for [IndexError]. *)
Definition setitem (l : list A) (i : nat) (v : A) : option (list A) :=
  if decide (i < length l) then Some (<[i := v]> l) else None.

(** [range(lo, hi)]. *)
Definition range (lo hi : nat) : list nat := seq lo (hi - lo).

(** [for j in js: s = body(j, s)], stopping at the first error. *)
Fixpoint for_each {S : Type} (body : nat → S → option S)
    (js : list nat) (s : S) : option S :=
  match js with
  | [] => Some s
  | j :: js' => s' ← body j s; for_each body js' s'
  end.
End PyList.

(** ** What the traced variants print

    One constructor per [print] call of the two modules, carrying the
    values the format string interpolates. *)
Inductive line (A : Type) : Type :=
| SourceArray (arr : list A)
| Rule
| PassHeader (k : nat)
| SwapLine (steps : nat) (a b : A) (arr : list A)
| NoSwaps
| Blank
| ResultLine (arr : list A)
| TotalSteps (steps : nat)
| Sorting (depth : nat) (arr : list A)
| BaseCase (depth : nat) (arr : list A)
| Split (depth : nat) (l r : list A)
| Merging (depth : nat) (l r merged : list A)
| Merged (depth : nat) (merged : list A).
Arguments SourceArray {A} arr.
Arguments Rule {A}.
Arguments PassHeader {A} k.
Arguments SwapLine {A} steps a b arr.
Arguments NoSwaps {A}.
Arguments Blank {A}.
Arguments ResultLine {A} arr.
Arguments TotalSteps {A} steps.
Arguments Sorting {A} depth arr.
Arguments BaseCase {A} depth arr.
Arguments Split {A} depth l r.
Arguments Merging {A} depth l r merged.
Arguments Merged {A} depth merged.

(** * Part I: the value-level model *)

(** ** bubble_sort.py *)

Section BubbleSort.
Context {A : Type} `{Cmp A}.

(** [sorted_arr[j], sorted_arr[j + 1] = (sorted_arr[j + 1], sorted_arr[j])]:
    the right-hand side is evaluated first, then the two stores are
    done from left to right. *)
Definition swap_items (sorted_arr : list A) (j : nat) : option (list A) :=
  a ← getitem sorted_arr (j + 1);
  b ← getitem sorted_arr j;
  s1 ← setitem sorted_arr j a;
  setitem s1 (j + 1) b.

(** The body of the inner loop of [bubble_sort]; the state is
    [(sorted_arr, swapped)]. *)
Definition bubble_step (reverse : bool) (j : nat)
    (st : list A * bool) : option (list A * bool) :=
  let '(sorted_arr, swapped) := st in
  x ← getitem sorted_arr j;
  y ← getitem sorted_arr (j + 1);
  if reverse then
    if py_lt x y
    then s ← swap_items sorted_arr j; Some (s, true)
    else Some (sorted_arr, swapped)
  else
    if py_gt x y
    then s ← swap_items sorted_arr j; Some (s, true)
    else Some (sorted_arr, swapped).

(** The outer loop [for i in range(n)] with its [break]. *)
Fixpoint bubble_passes (reverse : bool) (n : nat) (passes : list nat)
    (sorted_arr : list A) : option (list A) :=
  match passes with
  | [] => Some sorted_arr
  | i :: rest =>
      '(sorted_arr', swapped) ←
        for_each (bubble_step reverse) (range 0 (n - i - 1))
                 (sorted_arr, false);
      if negb swapped then Some sorted_arr'
      else bubble_passes reverse n rest sorted_arr'
  end.

Definition bubble_sort (arr : list A) (reverse : bool) : option (list A) :=
  let sorted_arr := arr in
  let n := length sorted_arr in
  bubble_passes reverse n (range 0 n) sorted_arr.

(** The body of the inner loop of [bubble_sort_with_steps]; the state
    is [(sorted_arr, swapped, steps, out)], [out] being what has been
    printed so far. *)
Definition traced_step (reverse : bool) (j : nat)
    (st : list A * bool * nat * list (line A))
    : option (list A * bool * nat * list (line A)) :=
  let '(sorted_arr, swapped, steps, out) := st in
  let steps := steps + 1 in
  x ← getitem sorted_arr j;
  y ← getitem sorted_arr (j + 1);
  if reverse then
    if py_lt x y
    then s ← swap_items sorted_arr j;
         a ← getitem s (j + 1);
         b ← getitem s j;
         Some (s, true, steps, out ++ [SwapLine steps a b s])
    else Some (sorted_arr, swapped, steps, out)
  else
    if py_gt x y
    then s ← swap_items sorted_arr j;
         a ← getitem s (j + 1);
         b ← getitem s j;
         Some (s, true, steps, out ++ [SwapLine steps a b s])
    else Some (sorted_arr, swapped, steps, out).

Fixpoint traced_passes (reverse : bool) (n : nat) (passes : list nat)
    (st : list A * nat * list (line A))
    : option (list A * nat * list (line A)) :=
  match passes with
  | [] => Some st
  | i :: rest =>
      let '(sorted_arr, steps, out) := st in
      let out := out ++ [PassHeader (i + 1)] in
      '(sorted_arr', swapped, steps', out') ←
        for_each (traced_step reverse) (range 0 (n - i - 1))
                 (sorted_arr, false, steps, out);
      if negb swapped then Some (sorted_arr', steps', out' ++ [NoSwaps])
      else traced_passes reverse n rest (sorted_arr', steps', out' ++ [Blank])
  end.

(** Returns the pair the Python function returns, and next to it the
    lines it printed. *)
Definition bubble_sort_with_steps (arr : list A) (reverse : bool)
    : option ((list A * nat) * list (line A)) :=
  let sorted_arr := arr in
  let n := length sorted_arr in
  let steps := 0 in
  let out := [SourceArray sorted_arr; Rule] in
  '(sorted_arr, steps, out) ←
    traced_passes reverse n (range 0 n) (sorted_arr, steps, out);
  let out := out ++ [Rule; ResultLine sorted_arr; TotalSteps steps] in
  Some ((sorted_arr, steps), out).
End BubbleSort.

(** ** merge_sort.py *)

(** Both halves of a list of two or more elements, split at
    [len(arr) // 2], are strictly shorter than the list. *)
Ltac solve_halves :=
  repeat match goal with x := _ |- _ => subst x end;
  rewrite ?length_take, ?length_drop;
  match goal with
  | Hn : ¬ length ?arr ≤ 1 |- _ =>
      assert (0 < length arr / 2) by (apply Nat.div_str_pos; lia);
      assert (length arr / 2 < length arr) by (apply Nat.div_lt; lia)
  end; lia.

Section MergeSort.
Context {A : Type} `{Cmp A}.

(** The first [while] loop of [merge]:
    [while i < len(left) and j < len(right)].  The state is
    [(result, i, j)]; the loop ends because every iteration advances
    one of the two cursors. *)
Equations? merge_both (lft rgt : list A) (reverse : bool)
    (result : list A) (i j : nat) : option (list A * nat * nat)
    by wf (length lft - i + (length rgt - j)) lt :=
  merge_both lft rgt reverse result i j
    with decide (i < length lft ∧ j < length rgt) => {
    | right _ := Some (result, i, j);
    | left _ with getitem lft i, getitem rgt j => {
      | Some x, Some y with reverse => {
        | true with py_ge x y => {
          | true := merge_both lft rgt reverse (result ++ [x]) (i + 1) j;
          | false := merge_both lft rgt reverse (result ++ [y]) i (j + 1) };
        | false with py_le x y => {
          | true := merge_both lft rgt reverse (result ++ [x]) (i + 1) j;
          | false := merge_both lft rgt reverse (result ++ [y]) i (j + 1) } };
      | _, _ := None } }.
Proof. all: lia. Qed.

(** The second and third loops of [merge]:
    [while i < len(src): result.append(src[i]); i += 1]. *)
Equations? merge_rest (src : list A) (result : list A) (i : nat)
    : option (list A * nat) by wf (length src - i) lt :=
  merge_rest src result i with decide (i < length src) => {
    | right _ := Some (result, i);
    | left _ with getitem src i => {
      | Some x := merge_rest src (result ++ [x]) (i + 1);
      | None := None } }.
Proof. lia. Qed.

Definition merge (lft rgt : list A) (reverse : bool) : option (list A) :=
  let result := [] in
  '(result, i, j) ← merge_both lft rgt reverse result 0 0;
  '(result, i) ← merge_rest lft result i;
  '(result, j) ← merge_rest rgt result j;
  Some result.

(** [arr[:mid]] and [arr[mid:]] are [take mid arr] and [drop mid arr];
    for [len(arr) >= 2] both are shorter than [arr]. *)
Equations? merge_sort (arr : list A) (reverse : bool) : option (list A)
    by wf (length arr) lt :=
  merge_sort arr reverse with decide (length arr ≤ 1) => {
    | left _ := Some arr;
    | right _ :=
        let mid := length arr / 2 in
        let lft := take mid arr in
        let rgt := drop mid arr in
        left_sorted ← merge_sort lft reverse;
        right_sorted ← merge_sort rgt reverse;
        merge left_sorted right_sorted reverse }.
Proof. all: solve_halves. Qed.

(** Returns the pair the Python function returns, and next to it the
    lines it printed. *)
Equations? merge_sort_with_steps (arr : list A) (reverse : bool)
    (depth : nat) : option ((list A * nat) * list (line A))
    by wf (length arr) lt :=
  merge_sort_with_steps arr reverse depth
    with decide (length arr ≤ 1) => {
    | left _ := Some ((arr, 0), [Sorting depth arr; BaseCase depth arr]);
    | right _ :=
        let mid := length arr / 2 in
        let lft := take mid arr in
        let rgt := drop mid arr in
        '((left_sorted, left_ops), out_l) ←
          merge_sort_with_steps lft reverse (depth + 1);
        '((right_sorted, right_ops), out_r) ←
          merge_sort_with_steps rgt reverse (depth + 1);
        merged ← merge left_sorted right_sorted reverse;
        let merge_ops := length left_sorted + length right_sorted in
        let total_ops := left_ops + right_ops + merge_ops in
        Some ((merged, total_ops),
              [Sorting depth arr; Split depth lft rgt] ++ out_l ++ out_r
              ++ [Merging depth left_sorted right_sorted merged;
                  Merged depth merged]) }.
Proof. all: solve_halves. Qed.
End MergeSort.

(** * Part II: the store-level model

    Python lists are objects handled through references.  The store
    holds the list objects allocated so far, a reference is the position
    of its object in the store, and an allocation appends to the store.
    Next to the objects the state carries what has been printed.

    The [while] loops of [merge] and the recursion of [merge_sort] take a
    bound [fuel] on their number of iterations and on their depth; the
    theorems show that a large enough bound always exists. *)

Module Store.

(** How a call ends: with a result, with the [IndexError] of an index
    out of range, on a reference to no object (which Python cannot
    produce), or because the bound on loops and depth was too small. *)
Inductive outcome (X : Type) : Type :=
| Ok (x : X)
| IndexError
| Dangling
| OutOfFuel.
Arguments Ok {X} x.
Arguments IndexError {X}.
Arguments Dangling {X}.
Arguments OutOfFuel {X}.

Declare Scope store_scope.
Delimit Scope store_scope with store.

Section Model.
Context {A : Type} `{Cmp A}.

Definition ref : Type := nat.

Record state : Type := State {
  objects : list (list A);
  stdout : list (line A)
}.

Definition M (X : Type) : Type := state → outcome (X * state).

Definition ret {X : Type} (x : X) : M X := λ s, Ok (x, s).

Definition bind {X Y : Type} (m : M X) (k : X → M Y) : M Y :=
  λ s, match m s with
       | Ok (x, s') => k x s'
       | IndexError => IndexError
       | Dangling => Dangling
       | OutOfFuel => OutOfFuel
       end.

Definition raise {X : Type} (e : outcome (X * state)) : M X := λ _, e.

Notation "'let*' x ':=' m 'in' k" := (bind m (λ x, k))
  (at level 10, x name, m at level 100, k at level 200,
   only parsing) : store_scope.
Notation "'let*' ' p ':=' m 'in' k" := (bind m (λ p, k))
  (at level 10, p strict pattern, m at level 100, k at level 200,
   only parsing) : store_scope.
Local Open Scope store_scope.

(** *** The store *)

Definition alloc (v : list A) : M ref :=
  λ s, Ok (length (objects s),
           {| objects := objects s ++ [v]; stdout := stdout s |}).

Definition load (r : ref) : M (list A) :=
  λ s, match objects s !! r with
       | Some v => Ok (v, s)
       | None => Dangling
       end.

Definition store (r : ref) (v : list A) : M unit :=
  λ s, if decide (r < length (objects s))
       then Ok (tt, {| objects := <[r := v]> (objects s);
                       stdout := stdout s |})
       else Dangling.

Definition print (l : line A) : M unit :=
  λ s, Ok (tt, {| objects := objects s; stdout := stdout s ++ [l] |}).

(** *** The list operations the two modules use *)

(** [[]] *)
Definition list_new : M ref := alloc [].

(** [r.copy()] *)
Definition list_copy (r : ref) : M ref := let* v := load r in alloc v.

(** [len(r)] *)
Definition len (r : ref) : M nat := let* v := load r in ret (length v).

(** [r[i]] *)
Definition getitem (r : ref) (i : nat) : M A :=
  let* v := load r in
  match v !! i with
  | Some x => ret x
  | None => raise IndexError
  end.

(** [r[i] = x] *)
Definition setitem (r : ref) (i : nat) (x : A) : M unit :=
  let* v := load r in
  if decide (i < length v) then store r (<[i := x]> v) else raise IndexError.

(** [r.append(x)] *)
Definition append (r : ref) (x : A) : M unit :=
  let* v := load r in store r (v ++ [x]).

(** [r[:mid]] and [r[mid:]] *)
Definition slice_to (r : ref) (mid : nat) : M ref :=
  let* v := load r in alloc (take mid v).

Definition slice_from (r : ref) (mid : nat) : M ref :=
  let* v := load r in alloc (drop mid v).

(** [for j in js: s = body(j, s)] *)
Fixpoint for_each {S : Type} (body : nat → S → M S) (js : list nat) (s : S)
    : M S :=
  match js with
  | [] => ret s
  | j :: js' => let* s' := body j s in for_each body js' s'
  end.

(** *** bubble_sort.py *)

Definition swap_items (sorted_arr : ref) (j : nat) : M unit :=
  let* a := getitem sorted_arr (j + 1) in
  let* b := getitem sorted_arr j in
  let* _ := setitem sorted_arr j a in
  setitem sorted_arr (j + 1) b.

(** The body of the inner loop of [bubble_sort]; the local state is
    [swapped]. *)
Definition bubble_step (sorted_arr : ref) (reverse : bool) (j : nat)
    (swapped : bool) : M bool :=
  let* x := getitem sorted_arr j in
  let* y := getitem sorted_arr (j + 1) in
  if reverse then
    if py_lt x y
    then let* _ := swap_items sorted_arr j in ret true
    else ret swapped
  else
    if py_gt x y
    then let* _ := swap_items sorted_arr j in ret true
    else ret swapped.

Fixpoint bubble_passes (sorted_arr : ref) (reverse : bool) (n : nat)
    (passes : list nat) : M unit :=
  match passes with
  | [] => ret tt
  | i :: rest =>
      let* swapped :=
        for_each (bubble_step sorted_arr reverse) (range 0 (n - i - 1)) false in
      if negb swapped then ret tt
      else bubble_passes sorted_arr reverse n rest
  end.

Definition bubble_sort (arr : ref) (reverse : bool) : M ref :=
  let* sorted_arr := list_copy arr in
  let* n := len sorted_arr in
  let* _ := bubble_passes sorted_arr reverse n (range 0 n) in
  ret sorted_arr.

(** The body of the inner loop of [bubble_sort_with_steps]; the local
    state is [(swapped, steps)]. *)
Definition traced_step (sorted_arr : ref) (reverse : bool) (j : nat)
    (st : bool * nat) : M (bool * nat) :=
  let '(swapped, steps) := st in
  let steps := steps + 1 in
  let* x := getitem sorted_arr j in
  let* y := getitem sorted_arr (j + 1) in
  if reverse then
    if py_lt x y
    then let* _ := swap_items sorted_arr j in
         let* a := getitem sorted_arr (j + 1) in
         let* b := getitem sorted_arr j in
         let* s := load sorted_arr in
         let* _ := print (SwapLine steps a b s) in
         ret (true, steps)
    else ret (swapped, steps)
  else
    if py_gt x y
    then let* _ := swap_items sorted_arr j in
         let* a := getitem sorted_arr (j + 1) in
         let* b := getitem sorted_arr j in
         let* s := load sorted_arr in
         let* _ := print (SwapLine steps a b s) in
         ret (true, steps)
    else ret (swapped, steps).

Fixpoint traced_passes (sorted_arr : ref) (reverse : bool) (n : nat)
    (passes : list nat) (steps : nat) : M nat :=
  match passes with
  | [] => ret steps
  | i :: rest =>
      let* _ := print (PassHeader (i + 1)) in
      let* '(swapped, steps') :=
        for_each (traced_step sorted_arr reverse) (range 0 (n - i - 1))
                 (false, steps) in
      if negb swapped then
        let* _ := print NoSwaps in ret steps'
      else
        let* _ := print Blank in
        traced_passes sorted_arr reverse n rest steps'
  end.

Definition bubble_sort_with_steps (arr : ref) (reverse : bool)
    : M (ref * nat) :=
  let* sorted_arr := list_copy arr in
  let* n := len sorted_arr in
  let steps := 0 in
  let* s := load sorted_arr in
  let* _ := print (SourceArray s) in
  let* _ := print Rule in
  let* steps := traced_passes sorted_arr reverse n (range 0 n) steps in
  let* _ := print Rule in
  let* s := load sorted_arr in
  let* _ := print (ResultLine s) in
  let* _ := print (TotalSteps steps) in
  ret (sorted_arr, steps).

(** *** merge_sort.py *)

(** [while i < len(left) and j < len(right)]; the local state is
    [(i, j)].  [and] evaluates [len(right)] only when its first operand
    holds. *)
Fixpoint merge_both (fuel : nat) (lft rgt : ref) (reverse : bool)
    (result : ref) (i j : nat) : M (nat * nat) :=
  match fuel with
  | 0 => raise OutOfFuel
  | S fuel' =>
      let* len_left := len lft in
      let* continue :=
        (if decide (i < len_left)
         then let* len_right := len rgt in ret (bool_decide (j < len_right))
         else ret false) in
      if continue : bool then
        let* x := getitem lft i in
        let* y := getitem rgt j in
        if reverse then
          if py_ge x y
          then let* x' := getitem lft i in
               let* _ := append result x' in
               merge_both fuel' lft rgt reverse result (i + 1) j
          else let* y' := getitem rgt j in
               let* _ := append result y' in
               merge_both fuel' lft rgt reverse result i (j + 1)
        else
          if py_le x y
          then let* x' := getitem lft i in
               let* _ := append result x' in
               merge_both fuel' lft rgt reverse result (i + 1) j
          else let* y' := getitem rgt j in
               let* _ := append result y' in
               merge_both fuel' lft rgt reverse result i (j + 1)
      else ret (i, j)
  end.

(** [while i < len(src): result.append(src[i]); i += 1] *)
Fixpoint merge_rest (fuel : nat) (src result : ref) (i : nat) : M nat :=
  match fuel with
  | 0 => raise OutOfFuel
  | S fuel' =>
      let* len_src := len src in
      if decide (i < len_src)
      then let* x := getitem src i in
           let* _ := append result x in
           merge_rest fuel' src result (i + 1)
      else ret i
  end.

Definition merge (fuel : nat) (lft rgt : ref) (reverse : bool) : M ref :=
  let* result := list_new in
  let* '(i, j) := merge_both fuel lft rgt reverse result 0 0 in
  let* i := merge_rest fuel lft result i in
  let* j := merge_rest fuel rgt result j in
  ret result.

Fixpoint merge_sort (fuel : nat) (arr : ref) (reverse : bool) : M ref :=
  match fuel with
  | 0 => raise OutOfFuel
  | S fuel' =>
      let* n := len arr in
      if decide (n ≤ 1) then list_copy arr
      else
        let* n := len arr in
        let mid := n / 2 in
        let* lft := slice_to arr mid in
        let* rgt := slice_from arr mid in
        let* left_sorted := merge_sort fuel' lft reverse in
        let* right_sorted := merge_sort fuel' rgt reverse in
        merge fuel' left_sorted right_sorted reverse
  end.

Fixpoint merge_sort_with_steps (fuel : nat) (arr : ref) (reverse : bool)
    (depth : nat) : M (ref * nat) :=
  match fuel with
  | 0 => raise OutOfFuel
  | S fuel' =>
      let* a := load arr in
      let* _ := print (Sorting depth a) in
      let* n := len arr in
      if decide (n ≤ 1) then
        let* a := load arr in
        let* _ := print (BaseCase depth a) in
        let* copy := list_copy arr in
        ret (copy, 0)
      else
        let* n := len arr in
        let mid := n / 2 in
        let* lft := slice_to arr mid in
        let* rgt := slice_from arr mid in
        let* l := load lft in
        let* r := load rgt in
        let* _ := print (Split depth l r) in
        let* '(left_sorted, left_ops) :=
          merge_sort_with_steps fuel' lft reverse (depth + 1) in
        let* '(right_sorted, right_ops) :=
          merge_sort_with_steps fuel' rgt reverse (depth + 1) in
        let* merged := merge fuel' left_sorted right_sorted reverse in
        let* len_l := len left_sorted in
        let* len_r := len right_sorted in
        let merge_ops := len_l + len_r in
        let* ls := load left_sorted in
        let* rs := load right_sorted in
        let* m := load merged in
        let* _ := print (Merging depth ls rs m) in
        let* m := load merged in
        let* _ := print (Merged depth m) in
        let total_ops := left_ops + right_ops + merge_ops in
        ret (merged, total_ops)
  end.
End Model.

Arguments state A : clear implicits.
Arguments M A X : clear implicits.
End Store.

(** * Functional descriptions used in the proofs *)

Section Policy.
Context {A : Type} `{Cmp A}.

(** The comparison under which [merge] takes the head of the left
    list, and the one under which [bubble_sort] exchanges a pair. *)
Definition precedes (reverse : bool) (x y : A) : bool :=
  if reverse then py_ge x y else py_le x y.

Definition out_of_order (reverse : bool) (x y : A) : bool :=
  if reverse then py_lt x y else py_gt x y.

(** Two elements that compare equal. *)
Definition same_rank (x y : A) : bool := py_le x y && py_le y x.

(** Every adjacent pair of [R] respects the ordering policy. *)
Definition ordered (reverse : bool) (R : list A) : Prop :=
  ∀ i x y, R !! i = Some x → R !! (i + 1) = Some y →
           precedes reverse x y = true.

(** One pass of the inner loop seen from the element it carries:
    [x] sits at the cursor, [l] is what follows it, and [m] adjacent
    pairs are still to be examined.  The flag tells whether a pair was
    exchanged. *)
Fixpoint carry (reverse : bool) (m : nat) (x : A) (l : list A)
    : list A * bool :=
  match m, l with
  | S m', y :: l' =>
      if out_of_order reverse x y
      then (y :: (carry reverse m' x l').1, true)
      else (x :: (carry reverse m' y l').1, (carry reverse m' y l').2)
  | _, _ => (x :: l, false)
  end.

Fixpoint passes_fun (reverse : bool) (n : nat) (passes : list nat)
    (arr : list A) : list A :=
  match passes, arr with
  | i :: rest, x :: l =>
      let r := carry reverse (n - i - 1) x l in
      if r.2 then passes_fun reverse n rest r.1 else r.1
  | _, _ => arr
  end.

(** The two-way merge as a function on lists. *)
Fixpoint merge_lists (reverse : bool) (l : list A) : list A → list A :=
  fix merge_right (r : list A) : list A :=
    match l, r with
    | [], _ => r
    | _, [] => l
    | x :: l', y :: r' =>
        if precedes reverse x y
        then x :: merge_lists reverse l' r
        else y :: merge_right r'
    end.

(** [x] may stand before [y] in a list sorted in direction [d]. *)
Definition goes_before (d : bool) : relation A :=
  λ x y, precedes d x y = true.

(** The elements of [l] that compare equal to [z], in their order. *)
Definition peers (z : A) (l : list A) : list A :=
  filter (λ a, same_rank z a = true) l.
End Policy.

(** ** Tagging elements with their original position *)

Section TaggingDefs.
Context {A : Type} `{Cmp A}.



End TaggingDefs.

(** ** What a store-level call does to the store *)

Section StoreDescriptions.
Context {A : Type} `{Cmp A}.
Implicit Types (h news : list (list A)) (out pre : list (line A)).
Implicit Types (arr R : list A) (d : bool) (s : Store.state A).

(** The store-level [merge_sort] run on a reference to [arr]: with
    enough fuel it allocates some lists and then its result, and changes
    nothing else. *)
Definition merge_sort_runs d arr R : Prop :=
  ∃ fuel0, ∀ h out a fuel,
    h !! a = Some arr → fuel0 ≤ fuel →
      ∃ news,
        Store.merge_sort fuel a d (Store.State h out)
        = Store.Ok (length (h ++ news),
                    Store.State ((h ++ news) ++ [R]) out).

(** The same for [merge_sort_with_steps], which also prints [o]. *)
Definition merge_sort_with_steps_runs d arr depth R ops (o : list (line A))
    : Prop :=
  ∃ fuel0, ∀ h pre a fuel,
    h !! a = Some arr → fuel0 ≤ fuel →
      ∃ news,
        Store.merge_sort_with_steps fuel a d depth (Store.State h pre)
        = Store.Ok ((length (h ++ news), ops),
                    Store.State ((h ++ news) ++ [R]) (pre ++ o)).

(** What the caller sees once a call on its list [arr], which
    holds [S], has returned the reference [r] in the store [s']: its list
    and every other object it had are what they were, and [r] is an
    object that did not exist before the call and holds [R]. *)
Definition returns_new_list s (arr : Store.ref) (S : list A)
    (r : Store.ref) (s' : Store.state A) (R : list A) : Prop :=
  Store.objects s' !! arr = Some S
  ∧ (∀ r0 v, Store.objects s !! r0 = Some v →
             Store.objects s' !! r0 = Some v)
  ∧ r ≠ arr
  ∧ Store.objects s !! r = None
  ∧ Store.objects s' !! r = Some R.
End StoreDescriptions.

(** * The rest of the code: observations on traces, password_generator.py *)

(** ** Reading the traces of the traced variants *)

Section TraceReading.
Context {A : Type}.

(** The recursion depth a line of [merge_sort_with_steps] was printed
    at (its indentation); lines of [bubble_sort_with_steps] have none. *)
Definition line_depth (l : line A) : option nat :=
  match l with
  | Sorting depth _ | BaseCase depth _ | Split depth _ _
  | Merging depth _ _ _ | Merged depth _ => Some depth
  | _ => None
  end.

Definition is_merging (l : line A) : bool :=
  match l with Merging _ _ _ _ => true | _ => false end.

Definition is_base_case (l : line A) : bool :=
  match l with BaseCase _ _ => true | _ => false end.

Definition is_no_swaps (l : line A) : bool :=
  match l with NoSwaps => true | _ => false end.

Definition is_pass_header (l : line A) : bool :=
  match l with PassHeader _ => true | _ => false end.

Definition is_swap_line (l : line A) : bool :=
  match l with SwapLine _ _ _ _ => true | _ => false end.

(** How many lines of a trace satisfy [f]. *)
Definition count_lines (f : line A → bool) (out : list (line A)) : nat :=
  length (List.filter f out).
End TraceReading.

(** ** password_generator.py *)

Module PasswordGenerator.

(** [string.ascii_uppercase], [string.ascii_lowercase], [string.digits]
    and the literal of special characters. *)
Definition ascii_uppercase : list ascii :=
  list_ascii_of_string "ABCDEFGHIJKLMNOPQRSTUVWXYZ".
Definition ascii_lowercase : list ascii :=
  list_ascii_of_string "abcdefghijklmnopqrstuvwxyz".
Definition digits : list ascii :=
  list_ascii_of_string "0123456789".
Definition special : list ascii :=
  list_ascii_of_string "!@#$%^&*()_+-=[]{}|;:,.<>?".

(** The two [ValueError]s of [generate_password], named by condition. *)
Inductive value_error : Type :=
| LengthNotPositive
| NoCharacterType.

(** How a call ends: with a result, with a [ValueError], or with the
    [IndexError] of an index out of range. *)
Inductive outcome (X : Type) : Type :=
| Ok (x : X)
| ValueError (e : value_error)
| IndexError.
Arguments Ok {X} x.
Arguments ValueError {X} e.
Arguments IndexError {X}.

(** How [main] ends: by reaching its end, by [sys.exit(code)], or with
    an exception nobody catches. *)
Inductive exit : Type :=
| Finished
| Exit (code : Z)
| Uncaught.

(** The parsed command line, [args = parser.parse_args()]. *)
Record args : Type := Args {
  args_length : Z;
  args_no_uppercase : bool;
  args_no_lowercase : bool;
  args_no_digits : bool;
  args_no_special : bool;
  args_count : Z
}.

(** What [main] wrote and how it ended. *)
Record run : Type := Run {
  stdout : list (list ascii);
  stderr : list value_error;
  status : exit
}.

Section Generator.
(** The system's random source: [randbelow n g] draws a number from the
    generator state [g].  The theorems that need it assume the contract
    of [secrets]: the number drawn is below [n]. *)
Context {G : Type} (randbelow : nat → G → nat * G).

(** [secrets.choice(seq)]: [seq[randbelow(len(seq))]], with
    [IndexError] on an empty sequence. *)
Definition choice (seq : list ascii) (g : G) : outcome (ascii * G) :=
  if decide (seq = []) then IndexError
  else
    let '(i, g') := randbelow (length seq) g in
    match seq !! i with
    | Some c => Ok (c, g')
    | None => IndexError
    end.

(** [[secrets.choice(characters) for _ in range(n)]], the characters
    that [join] puts together. *)
Fixpoint choices (n : nat) (characters : list ascii) (g : G)
    : outcome (list ascii * G) :=
  match n with
  | 0 => Ok ([], g)
  | S n' =>
      match choice characters g with
      | Ok (c, g') =>
          match choices n' characters g' with
          | Ok (cs, g'') => Ok (c :: cs, g'')
          | ValueError e => ValueError e
          | IndexError => IndexError
          end
      | ValueError e => ValueError e
      | IndexError => IndexError
      end
  end.

(** The character set [generate_password] builds from its flags. *)
Definition characters_of
    (use_uppercase use_lowercase use_digits use_special : bool)
    : list ascii :=
  let characters := [] in
  let characters :=
    if use_uppercase then characters ++ ascii_uppercase else characters in
  let characters :=
    if use_lowercase then characters ++ ascii_lowercase else characters in
  let characters :=
    if use_digits then characters ++ digits else characters in
  let characters :=
    if use_special then characters ++ special else characters in
  characters.

Definition generate_password (length : Z)
    (use_uppercase use_lowercase use_digits use_special : bool) (g : G)
    : outcome (list ascii * G) :=
  if decide (length ≤ 0)%Z then ValueError LengthNotPositive
  else
    let characters :=
      characters_of use_uppercase use_lowercase use_digits use_special in
    if decide (characters = []) then ValueError NoCharacterType
    else choices (Z.to_nat length) characters g.

(** The loop of [main], [for i in range(args.count)], inside its [try]:
    [printed] is what has been written to the standard output. *)
Fixpoint main_loop (n : nat) (a : args) (printed : list (list ascii))
    (g : G) : run * G :=
  match n with
  | 0 => (Run printed [] Finished, g)
  | S n' =>
      match generate_password (args_length a)
              (negb (args_no_uppercase a)) (negb (args_no_lowercase a))
              (negb (args_no_digits a)) (negb (args_no_special a)) g with
      | Ok (password, g') => main_loop n' a (printed ++ [password]) g'
      | ValueError e => (Run printed [e] (Exit 1), g)
      | IndexError => (Run printed [] Uncaught, g)
      end
  end.

(** [main], from the parsed arguments on. *)
Definition main (a : args) (g : G) : run * G :=
  main_loop (Z.to_nat (args_count a)) a [] g.
End Generator.

(** What is expected of a generated password: the requested length and
    characters of the selected set only. *)
Definition well_formed (len : Z) (u l d s : bool) (pw : list ascii) : Prop :=
  length pw = Z.to_nat len ∧ Forall (λ c, c ∈ characters_of u l d s) pw.

(** A random source that replays a tape of numbers, for showing what
    can be drawn. *)
Definition replay (n : nat) (tape : list nat) : nat * list nat :=
  match tape with
  | [] => (0, [])
  | i :: tape' => (i, tape')
  end.
End PasswordGenerator.

(** * Concrete scenarios *)

Example bubble_sort_scenario_asc :
  bubble_sort [5; 2; 8; 1; 9]%Z false = Some [1; 2; 5; 8; 9]%Z.
Proof. reflexivity. Qed.

Example bubble_sort_scenario_desc :
  bubble_sort [5; 2; 8; 1; 9]%Z true = Some [9; 8; 5; 2; 1]%Z.
Proof. reflexivity. Qed.

Example merge_sort_scenario_asc :
  merge_sort [5; 2; 8; 1; 9]%Z false = Some [1; 2; 5; 8; 9]%Z.
Proof. reflexivity. Qed.

Example merge_sort_scenario_desc :
  merge_sort [5; 2; 8; 1; 9]%Z true = Some [9; 8; 5; 2; 1]%Z.
Proof. reflexivity. Qed.

Example empty_scenario :
  bubble_sort ([] : list Z) false = Some []
  ∧ merge_sort ([] : list Z) true = Some []
  ∧ fst <$> bubble_sort_with_steps ([] : list Z) true = Some ([], 0)
  ∧ fst <$> merge_sort_with_steps ([] : list Z) false 0 = Some ([], 0).
Proof. repeat split. Qed.

Example singleton_scenario :
  bubble_sort [7]%Z false = Some [7]%Z
  ∧ merge_sort [7]%Z true = Some [7]%Z
  ∧ fst <$> bubble_sort_with_steps [7]%Z true = Some ([7]%Z, 0)
  ∧ fst <$> merge_sort_with_steps [7]%Z false 0 = Some ([7]%Z, 0).
Proof. repeat split. Qed.

Example store_bubble_sort_run :
  Store.bubble_sort 0 false (Store.State [[5; 2; 8; 1; 9]%Z] [])
  = Store.Ok (1, Store.State [[5; 2; 8; 1; 9]%Z; [1; 2; 5; 8; 9]%Z] []).
Proof. reflexivity. Qed.

Example store_merge_sort_run :
  Store.merge_sort 10 0 true (Store.State [[5; 2; 8]%Z] [])
  = Store.Ok (9, Store.State [[5; 2; 8]%Z; [5]%Z; [2; 8]%Z; [5]%Z;
                               [2]%Z; [8]%Z; [2]%Z; [8]%Z; [8; 2]%Z;
                               [8; 5; 2]%Z] []).
Proof. vm_compute. reflexivity. Qed.

(** * Part I, proofs *)

Section PyListFacts.
Context {A : Type}.
Implicit Types l p q : list A.

Lemma app_cons_snoc p x q : p ++ x :: q = (p ++ [x]) ++ q.
Proof. by rewrite <- (assoc_L (++)). Qed.

Lemma getitem_middle p x q : getitem (p ++ x :: q) (length p) = Some x.
Proof. unfold getitem. by apply list_lookup_middle. Qed.

Lemma getitem_next p x y q :
  getitem (p ++ x :: y :: q) (length p + 1) = Some y.
Proof.
  unfold getitem. rewrite (app_cons_snoc p x).
  apply list_lookup_middle. rewrite length_app. simpl. lia.
Qed.

Lemma setitem_middle p x q v :
  setitem (p ++ x :: q) (length p) v = Some (p ++ v :: q).
Proof.
  unfold setitem. rewrite decide_True.
  - by rewrite insert_app_r_alt, Nat.sub_diag.
  - rewrite length_app. simpl. lia.
Qed.

Lemma setitem_next p x y q v :
  setitem (p ++ x :: y :: q) (length p + 1) v = Some (p ++ x :: v :: q).
Proof.
  rewrite (app_cons_snoc p x).
  replace (length p + 1) with (length (p ++ [x]))
    by (rewrite length_app; simpl; lia).
  rewrite setitem_middle. by rewrite <- !app_cons_snoc.
Qed.

End PyListFacts.

(** ** The loops of bubble_sort.py compute [carry] and [passes_fun] *)

Section BubbleRefine.
Context {A : Type} `{Cmp A}.
Implicit Types (p q l arr : list A) (reverse sw : bool).

Lemma swap_items_spec p x y q :
  swap_items (p ++ x :: y :: q) (length p) = Some (p ++ y :: x :: q).
Proof.
  unfold swap_items. rewrite getitem_next, getitem_middle. simpl.
  rewrite setitem_middle. simpl. apply setitem_next.
Qed.

Lemma bubble_step_spec reverse p x y q sw :
  bubble_step reverse (length p) (p ++ x :: y :: q, sw) =
  Some (if out_of_order reverse x y
        then (p ++ y :: x :: q, true) else (p ++ x :: y :: q, sw)).
Proof.
  unfold bubble_step, out_of_order.
  rewrite getitem_middle, getitem_next. simpl.
  destruct reverse; [destruct (py_lt x y) | destruct (py_gt x y)];
    try done; by rewrite swap_items_spec.
Qed.

Lemma traced_step_spec reverse p x y q sw steps (out : list (line A)) :
  traced_step reverse (length p) (p ++ x :: y :: q, sw, steps, out) =
  Some (if out_of_order reverse x y
        then (p ++ y :: x :: q, true, steps + 1,
              out ++ [SwapLine (steps + 1) x y (p ++ y :: x :: q)])
        else (p ++ x :: y :: q, sw, steps + 1, out)).
Proof.
  unfold traced_step, out_of_order.
  rewrite getitem_middle, getitem_next. simpl.
  destruct reverse; [destruct (py_lt x y) | destruct (py_gt x y)];
    try done; rewrite swap_items_spec; simpl;
    by rewrite getitem_middle, getitem_next.
Qed.

Lemma inner_loop_carry reverse m : ∀ p x l sw,
  m ≤ length l →
  for_each (bubble_step reverse) (seq (length p) m) (p ++ x :: l, sw)
  = Some (p ++ (carry reverse m x l).1, sw || (carry reverse m x l).2).
Proof.
  induction m as [|m IH]; intros p x l sw Hm.
  - simpl. by rewrite orb_false_r.
  - destruct l as [|y l]; [simpl in Hm; lia|]. simpl in Hm.
    cbn [seq for_each]. rewrite bubble_step_spec. cbn [mbind option_bind].
    replace (S (length p)) with (length (p ++ [y]))
      by (rewrite length_app; simpl; lia).
    cbn [carry]. destruct (out_of_order reverse x y).
    + rewrite (app_cons_snoc p y (x :: l)), IH by lia.
      rewrite orb_true_r. cbn [fst snd]. by rewrite <- app_cons_snoc.
    + replace (length (p ++ [y])) with (length (p ++ [x]))
        by (rewrite !length_app; simpl; lia).
      rewrite (app_cons_snoc p x (y :: l)), IH by lia.
      cbn [fst snd]. by rewrite <- app_cons_snoc.
Qed.

Lemma carry_length reverse m : ∀ x l,
  length (carry reverse m x l).1 = S (length l).
Proof.
  induction m as [|m IH]; intros x [|y l]; simpl; try done.
  destruct (out_of_order reverse x y); simpl; by rewrite IH.
Qed.

Lemma bubble_passes_fun reverse n passes : ∀ arr,
  length arr = n →
  bubble_passes reverse n passes arr = Some (passes_fun reverse n passes arr).
Proof.
  induction passes as [|i rest IH]; intros arr Hn; [by destruct arr|].
  cbn [bubble_passes]. unfold range. rewrite Nat.sub_0_r.
  destruct arr as [|x l].
  - simpl in Hn. subst n. done.
  - simpl in Hn.
    pose proof (inner_loop_carry reverse (n - i - 1) [] x l false) as Hc.
    cbn [length app] in Hc. rewrite Hc by lia.
    cbn [mbind option_bind app orb passes_fun].
    destruct (carry reverse (n - i - 1) x l).2 eqn:Hsw; cbn [negb]; [|done].
    apply IH. rewrite carry_length. lia.
Qed.

Lemma bubble_sort_fun arr reverse :
  bubble_sort arr reverse
  = Some (passes_fun reverse (length arr) (seq 0 (length arr)) arr).
Proof.
  unfold bubble_sort, range. rewrite Nat.sub_0_r.
  by apply bubble_passes_fun.
Qed.
End BubbleRefine.

(** ** The ordering policy of a totally ordered element type *)

Section PolicyFacts.
Context {A : Type} `{TotalCmp A}.
Implicit Types (x y z : A) (d : bool) (l : list A).

Lemma precedes_total d x y : precedes d x y = true ∨ precedes d y x = true.
Proof. unfold precedes. destruct d; rewrite ?py_ge_le; apply py_le_total. Qed.

Lemma precedes_trans d x y z :
  precedes d x y = true → precedes d y z = true → precedes d x z = true.
Proof.
  unfold precedes. destruct d; rewrite ?py_ge_le; eauto using py_le_trans.
Qed.

Lemma precedes_refl d x : precedes d x x = true.
Proof. by destruct (precedes_total d x x). Qed.

Lemma out_of_order_spec d x y : out_of_order d x y = negb (precedes d x y).
Proof.
  unfold out_of_order, precedes. destruct d.
  - by rewrite py_lt_le, py_ge_le.
  - by rewrite py_gt_lt, py_lt_le.
Qed.

Lemma same_rank_precedes d x y :
  same_rank x y = true ↔ precedes d x y = true ∧ precedes d y x = true.
Proof.
  unfold same_rank, precedes. rewrite andb_true_iff.
  destruct d; rewrite ?py_ge_le; tauto.
Qed.

Lemma same_rank_refl x : same_rank x x = true.
Proof. apply (same_rank_precedes false). split; apply precedes_refl. Qed.

Lemma same_rank_sym x y : same_rank x y = same_rank y x.
Proof. unfold same_rank. apply andb_comm. Qed.

#[global] Instance goes_before_trans d : Transitive (goes_before d).
Proof. intros x y z. apply precedes_trans. Qed.

Lemma sorted_app d l1 l2 :
  StronglySorted (goes_before d) l1 →
  StronglySorted (goes_before d) l2 →
  (∀ a b, a ∈ l1 → b ∈ l2 → goes_before d a b) →
  StronglySorted (goes_before d) (l1 ++ l2).
Proof.
  induction 1 as [|a l1 Hl1 IH Ha]; intros Hl2 Hx; simpl; [done|].
  constructor.
  - apply IH; [done|]. intros ? ? ? ?. apply Hx; [by right|done].
  - apply Forall_app. split; [done|].
    apply Forall_forall. intros b Hb. apply Hx; [by left|done].
Qed.

Lemma sorted_ordered d l : StronglySorted (goes_before d) l → ordered d l.
Proof.
  induction 1 as [|a l Hl IH Ha]; intros i x y Hx Hy;
    [by rewrite lookup_nil in Hx|].
  rewrite Nat.add_1_r in Hy. destruct i as [|i]; simpl in *.
  - injection Hx as ->. rewrite Forall_forall in Ha.
    apply Ha. by eapply list_elem_of_lookup_2.
  - apply (IH i); [done|]. by rewrite Nat.add_1_r.
Qed.
End PolicyFacts.

(** ** What one pass and the sequence of passes achieve *)

Section BubbleFacts.
Context {A : Type} `{Cmp A}.
Implicit Types (x y z : A) (d : bool) (l arr : list A).

Lemma carry_perm d m : ∀ x l, (carry d m x l).1 ≡ₚ x :: l.
Proof.
  induction m as [|m IH]; intros x [|y l]; simpl; try done.
  destruct (out_of_order d x y); simpl; rewrite IH; [|done].
  apply Permutation_swap.
Qed.

Lemma passes_fun_perm d n passes : ∀ arr, passes_fun d n passes arr ≡ₚ arr.
Proof.
  induction passes as [|i rest IH]; intros [|x l]; simpl; try done.
  destruct (carry d (n - i - 1) x l).2; rewrite ?IH; apply carry_perm.
Qed.

Context `{!TotalCmp A}.

Lemma carry_peers d z m : ∀ x l, peers z (carry d m x l).1 = peers z (x :: l).
Proof.
  induction m as [|m IH]; intros x [|y l]; simpl; try done.
  destruct (out_of_order d x y) eqn:Hxy; simpl; unfold peers in *.
  - rewrite filter_cons, IH, !filter_cons.
    destruct (decide (same_rank z y = true)) as [Hy|]; [|done].
    destruct (decide (same_rank z x = true)) as [Hx|]; [|done].
    rewrite out_of_order_spec in Hxy. apply negb_true_iff in Hxy.
    rewrite same_rank_sym in Hx.
    apply (same_rank_precedes d) in Hx as [Hx _].
    apply (same_rank_precedes d) in Hy as [Hy _].
    by rewrite (precedes_trans d x z y) in Hxy.
  - by rewrite filter_cons, IH, !filter_cons.
Qed.

Lemma passes_fun_peers d z n passes : ∀ arr,
  peers z (passes_fun d n passes arr) = peers z arr.
Proof.
  induction passes as [|i rest IH]; intros [|x l]; simpl; try done.
  destruct (carry d (n - i - 1) x l).2; rewrite ?IH; apply carry_peers.
Qed.

(** After a pass the carried element is the last of the scanned prefix
    and no element of that prefix has to come after it. *)
Lemma carry_shape d m : ∀ x l,
  m ≤ length l →
  ∃ q c, (carry d m x l).1 = q ++ c :: drop m l
         ∧ q ++ [c] ≡ₚ x :: take m l
         ∧ length q = m
         ∧ Forall (λ a, goes_before d a c) q
         ∧ goes_before d x c.
Proof.
  induction m as [|m IH]; intros x l Hm.
  - exists [], x. simpl. rewrite drop_0, take_0.
    repeat split; try done. apply precedes_refl.
  - destruct l as [|y l]; [simpl in Hm; lia|]. simpl in Hm. cbn [carry].
    destruct (out_of_order d x y) eqn:Hxy; cbn [fst];
      rewrite out_of_order_spec in Hxy.
    + destruct (IH x l) as (q & c & -> & Hp & Hq & Hall & Hxc); [lia|].
      exists (y :: q), c. cbn [app length drop take].
      assert (goes_before d y x) as Hyx.
      { apply negb_true_iff in Hxy.
        destruct (precedes_total d x y) as [Hc|Hc]; [congruence|done]. }
      repeat split; try done.
      * rewrite Hp. apply Permutation_swap.
      * by rewrite Hq.
      * constructor; [by trans x|done].
    + destruct (IH y l) as (q & c & -> & Hp & Hq & Hall & Hyc); [lia|].
      exists (x :: q), c. cbn [app length drop take].
      apply negb_false_iff in Hxy.
      assert (goes_before d x c) as Hxc by (by trans y).
      repeat split; try done.
      * by rewrite Hp.
      * by rewrite Hq.
      * by constructor.
Qed.

(** A pass that exchanges nothing leaves the list as it was, and the
    scanned prefix was already in order. *)
Lemma carry_clean d m : ∀ x l,
  (carry d m x l).2 = false →
  (carry d m x l).1 = x :: l ∧ Sorted (goes_before d) (x :: take m l).
Proof.
  induction m as [|m IH]; intros x [|y l]; simpl;
    try (intros _; split; [done|by repeat constructor]).
  destruct (out_of_order d x y) eqn:Hxy; [done|]. simpl.
  intros Hsw. destruct (IH y l Hsw) as [-> Hs]. split; [done|].
  rewrite out_of_order_spec in Hxy. apply negb_false_iff in Hxy.
  constructor; [done|]. by constructor.
Qed.

(** Before pass [i] the last [i] positions hold their final elements:
    they are in order and nothing before them has to come after any
    of them.  The passes that follow sort the rest. *)
Lemma passes_fun_sorted d n : ∀ cnt i arr,
  i + cnt = n → length arr = n →
  StronglySorted (goes_before d) (drop (n - i) arr) →
  (∀ a b, a ∈ take (n - i) arr → b ∈ drop (n - i) arr → goes_before d a b) →
  StronglySorted (goes_before d) (passes_fun d n (seq i cnt) arr).
Proof.
  induction cnt as [|cnt IH]; intros i arr Hi Hn Hs Hx.
  - simpl. replace (n - i) with 0 in Hs by lia. by rewrite drop_0 in Hs.
  - cbn [seq passes_fun]. destruct arr as [|x l]; [constructor|].
    simpl in Hn. set (m := n - i - 1).
    replace (n - i) with (S m) in Hs, Hx by lia. cbn [drop take] in Hs, Hx.
    cbn zeta. destruct (carry d m x l).2 eqn:Hsw.
    + destruct (carry_shape d m x l) as (q & c & Hr & Hp & Hq & Hall & _);
        [lia|].
      assert (∀ a, a ∈ q ++ [c] → a ∈ x :: take m l) as Hin
        by (intros a; by rewrite Hp).
      apply (IH (S i)); [lia|rewrite carry_length; lia|..];
        replace (n - S i) with m by lia; rewrite Hr.
      * rewrite drop_app_length' by done. constructor; [done|].
        apply Forall_forall. intros b Hb. apply Hx; [|done].
        apply Hin, elem_of_app. right. by left.
      * rewrite take_app_length', drop_app_length' by done.
        intros a b Ha Hb. apply elem_of_cons in Hb as [->|Hb].
        -- rewrite Forall_forall in Hall. by apply Hall.
        -- apply Hx; [|done]. apply Hin, elem_of_app. by left.
    + destruct (carry_clean d m x l Hsw) as [-> Hsorted].
      rewrite <- (take_drop m l), app_comm_cons.
      apply sorted_app; [|done..].
      apply Sorted_StronglySorted; [|done].
      intros ? ? ?. apply precedes_trans.
Qed.

Lemma passes_fun_ordered d arr :
  ordered d (passes_fun d (length arr) (seq 0 (length arr)) arr).
Proof.
  apply sorted_ordered, passes_fun_sorted; try done.
  - rewrite Nat.sub_0_r, drop_all. constructor.
  - rewrite Nat.sub_0_r, drop_all. intros a b _ Hb.
    by apply elem_of_nil in Hb.
Qed.
End BubbleFacts.

(** ** The loops of merge_sort.py compute [merge_lists] *)

Section MergeRefine.
Context {A : Type} `{Cmp A}.
Implicit Types (l r lft rgt result : list A) (d reverse : bool).

Lemma merge_lists_nil_l d r : merge_lists d [] r = r.
Proof. by destruct r. Qed.

Lemma merge_lists_nil_r d l : merge_lists d l [] = l.
Proof. by destruct l. Qed.

Lemma merge_lists_cons d x l y r :
  merge_lists d (x :: l) (y :: r) =
  if precedes d x y then x :: merge_lists d l (y :: r)
  else y :: merge_lists d (x :: l) r.
Proof. done. Qed.

Local Ltac merge_both_step :=
  match goal with
  | IH : ∃ _ _ _, _ |- _ => destruct IH as (? & ? & ? & ? & ?)
  end;
  do 3 eexists; split; [eassumption|]; etrans; [eassumption|];
  match goal with
  | Hl : ?a !! ?i = Some _, Hr : ?b !! ?j = Some _
    |- context [merge_lists _ (drop ?i ?a) (drop ?j ?b)] =>
      rewrite (drop_S _ _ _ Hl), (drop_S _ _ _ Hr)
  end;
  rewrite merge_lists_cons; unfold precedes;
  match goal with Hc : _ = _ :> bool |- _ => rewrite Hc end;
  by rewrite <- (assoc_L (++)), Nat.add_1_r.

Lemma merge_both_spec lft rgt reverse result i j :
  ∃ result' i' j',
    merge_both lft rgt reverse result i j = Some (result', i', j')
    ∧ result' ++ drop i' lft ++ drop j' rgt
      = result ++ merge_lists reverse (drop i lft) (drop j rgt).
Proof.
  funelim (merge_both lft rgt reverse result i j);
    repeat match goal with
      | Hg : getitem _ _ = _ |- _ => unfold getitem in Hg
      end.
  - exists result, i, j. split; [done|]. f_equal.
    destruct (decide (i < length lft)).
    + rewrite (drop_ge rgt j) by lia.
      by rewrite merge_lists_nil_r, app_nil_r.
    + rewrite (drop_ge lft i) by lia. by rewrite merge_lists_nil_l.
  - match goal with Hn : _ !! _ = None |- _ =>
      apply lookup_ge_None in Hn end. lia.
  - match goal with Hn : _ !! _ = None |- _ =>
      apply lookup_ge_None in Hn end. lia.
  - merge_both_step.
  - merge_both_step.
  - merge_both_step.
  - merge_both_step.
Qed.

Lemma merge_rest_spec src result i :
  ∃ i', merge_rest src result i = Some (result ++ drop i src, i').
Proof.
  funelim (merge_rest src result i); unfold getitem in *.
  - exists i. by rewrite drop_ge, app_nil_r by lia.
  - match goal with IH : ∃ _, _ |- _ => destruct IH as [i' ->] end.
    exists i'. do 2 f_equal.
    match goal with Hg : _ !! _ = Some _ |- _ =>
      rewrite (drop_S _ _ _ Hg) end.
    by rewrite <- (assoc_L (++)), Nat.add_1_r.
  - match goal with Hg : _ !! _ = None |- _ =>
      apply lookup_ge_None in Hg end. lia.
Qed.

Theorem merge_fun lft rgt reverse :
  merge lft rgt reverse = Some (merge_lists reverse lft rgt).
Proof.
  unfold merge.
  destruct (merge_both_spec lft rgt reverse [] 0 0)
    as (result & i & j & -> & Hres).
  cbn [mbind option_bind].
  destruct (merge_rest_spec lft result i) as [i' ->]. cbn [mbind option_bind].
  destruct (merge_rest_spec rgt (result ++ drop i lft) j) as [j' ->].
  cbn [mbind option_bind]. by rewrite <- (assoc_L (++)), Hres.
Qed.
End MergeRefine.

(** ** Proof rules for the recursion of merge_sort.py

    Whatever holds of the base case and is kept by a merge of the two
    sorted halves holds between the input and the output; in particular
    there is an output. *)

Section MergeSortRules.
Context {A : Type} `{Cmp A}.
Implicit Types (arr R ls rs : list A) (d : bool).

Lemma merge_sort_rule d (P : list A → list A → Prop) :
  (∀ arr, length arr ≤ 1 → P arr arr) →
  (∀ arr ls rs,
      1 < length arr →
      P (take (length arr / 2) arr) ls →
      P (drop (length arr / 2) arr) rs →
      P arr (merge_lists d ls rs)) →
  ∀ arr, ∃ R, merge_sort arr d = Some R ∧ P arr R.
Proof.
  intros Hbase Hstep arr.
  funelim (merge_sort arr d).
  - eexists. split; [done|]. by apply Hbase.
  - match goal with
    | IHl : ∀ P, _ → _ → ∃ R, merge_sort (take _ _) _ = _ ∧ _,
      IHr : list A → ∀ P, _ → _ → ∃ R, merge_sort (drop _ _) _ = _ ∧ _
      |- _ =>
        destruct (IHl P Hbase Hstep) as (ls & -> & Hls);
        destruct (IHr ls P Hbase Hstep) as (rs & -> & Hrs)
    end.
    cbn [mbind option_bind]. rewrite merge_fun.
    eexists. split; [done|]. apply Hstep; [lia|done..].
Qed.

(** One unfolding of the recursion. *)
Lemma merge_sort_step (arr : list A) d :
  merge_sort arr d =
  if decide (length arr ≤ 1) then Some arr
  else ls ← merge_sort (take (length arr / 2) arr) d;
       rs ← merge_sort (drop (length arr / 2) arr) d;
       merge ls rs d.
Proof.
  funelim (merge_sort arr d);
    match goal with Hd : decide _ = _ |- _ => by rewrite Hd end.
Qed.

Lemma merge_sort_with_steps_rule d
    (P : list A → nat → list A → nat → list (line A) → Prop) :
  (∀ arr depth, length arr ≤ 1 →
     P arr depth arr 0 [Sorting depth arr; BaseCase depth arr]) →
  (∀ arr depth ls rs ops_l ops_r out_l out_r,
      1 < length arr →
      P (take (length arr / 2) arr) (depth + 1) ls ops_l out_l →
      P (drop (length arr / 2) arr) (depth + 1) rs ops_r out_r →
      P arr depth (merge_lists d ls rs)
        (ops_l + ops_r + (length ls + length rs))
        ([Sorting depth arr;
          Split depth (take (length arr / 2) arr)
                      (drop (length arr / 2) arr)]
         ++ out_l ++ out_r
         ++ [Merging depth ls rs (merge_lists d ls rs);
             Merged depth (merge_lists d ls rs)])) →
  ∀ arr depth, ∃ R ops out,
    merge_sort_with_steps arr d depth = Some ((R, ops), out)
    ∧ P arr depth R ops out.
Proof.
  intros Hbase Hstep arr depth.
  funelim (merge_sort_with_steps arr d depth).
  - do 3 eexists. split; [done|]. by apply Hbase.
  - match goal with
    | IHl : ∀ P, _ → _ → ∃ R ops out,
              merge_sort_with_steps (take _ _) _ _ = _ ∧ _
      |- _ => destruct (IHl P Hbase Hstep) as (ls & ops_l & out_l & -> & Hls)
    end.
    cbn [mbind option_bind].
    match goal with
    | IHr : _ → _ → _ → _ → _ → ∀ P, _ → _ → ∃ R ops out,
              merge_sort_with_steps (drop _ _) _ _ = _ ∧ _
      |- _ => destruct (IHr (ls, ops_l, out_l) (ls, ops_l) out_l ls ops_l
                            P Hbase Hstep)
                as (rs & ops_r & out_r & -> & Hrs)
    end.
    cbn [mbind option_bind]. rewrite merge_fun. cbn [mbind option_bind].
    do 3 eexists. split; [done|]. apply Hstep; [lia|done..].
Qed.
End MergeSortRules.

(** ** What a merge and the recursion achieve *)

Section MergeFacts.
Context {A : Type} `{Cmp A}.
Implicit Types (x y z : A) (d : bool) (l r arr R : list A).

Lemma filter_none (P : A → Prop) `{∀ a, Decision (P a)} l :
  Forall (λ a, ¬ P a) l → filter P l = [].
Proof.
  induction 1 as [|a l Ha Hl IH]; [done|]. by rewrite filter_cons_False.
Qed.

Lemma merge_lists_perm d l : ∀ r, merge_lists d l r ≡ₚ l ++ r.
Proof.
  induction l as [|x l IHl]; intros r.
  - by rewrite merge_lists_nil_l.
  - induction r as [|y r IHr].
    + by rewrite merge_lists_nil_r, app_nil_r.
    + rewrite merge_lists_cons. destruct (precedes d x y).
      * by rewrite IHl.
      * rewrite IHr. cbn [app]. rewrite <- Permutation_middle.
        apply Permutation_swap.
Qed.

Lemma merge_lists_length d l r :
  length (merge_lists d l r) = length l + length r.
Proof. by rewrite merge_lists_perm, length_app. Qed.

Lemma merge_sort_perm arr d : ∃ R, merge_sort arr d = Some R ∧ R ≡ₚ arr.
Proof.
  apply (merge_sort_rule d (λ arr R, R ≡ₚ arr)); [done|].
  intros a ls rs _ Hl Hr.
  by rewrite merge_lists_perm, Hl, Hr, take_drop.
Qed.

Context `{!TotalCmp A}.

Lemma merge_lists_sorted d l :
  StronglySorted (goes_before d) l →
  ∀ r, StronglySorted (goes_before d) r →
       StronglySorted (goes_before d) (merge_lists d l r).
Proof.
  induction 1 as [|x l Hl IHl Hx]; intros r Hr.
  - by rewrite merge_lists_nil_l.
  - induction Hr as [|y r Hr IHr Hy].
    + rewrite merge_lists_nil_r. by constructor.
    + rewrite merge_lists_cons. destruct (precedes d x y) eqn:Hxy.
      * constructor; [apply IHl; by constructor|].
        rewrite merge_lists_perm. apply Forall_app. split; [done|].
        constructor; [done|].
        eapply Forall_impl; [exact Hy|]. intros b Hb. by trans y.
      * assert (goes_before d y x) as Hyx
          by (destruct (precedes_total d x y); [congruence|done]).
        constructor; [done|].
        rewrite merge_lists_perm. apply Forall_app. split; [|done].
        constructor; [done|].
        eapply Forall_impl; [exact Hx|]. intros b Hb. by trans x.
Qed.

Lemma merge_lists_peers d z l :
  StronglySorted (goes_before d) l →
  ∀ r, peers z (merge_lists d l r) = peers z l ++ peers z r.
Proof.
  induction 1 as [|x l Hl IHl Hx]; intros r.
  - by rewrite merge_lists_nil_l.
  - induction r as [|y r IHr].
    + by rewrite merge_lists_nil_r, app_nil_r.
    + rewrite merge_lists_cons. destruct (precedes d x y) eqn:Hxy.
      * unfold peers in *. rewrite !(filter_cons _ x), IHl.
        by destruct (decide (same_rank z x = true)).
      * unfold peers in *. rewrite !(filter_cons _ y), IHr.
        destruct (decide (same_rank z y = true)) as [Hzy|]; [|done].
        replace (filter (λ a, same_rank z a = true) (x :: l)) with (@nil A);
          [done|].
        symmetry. apply filter_none.
        apply (same_rank_precedes d) in Hzy as [Hzy _].
        assert (∀ a, goes_before d x a → same_rank z a ≠ true) as Hno.
        { intros a Hxa Hza. rewrite same_rank_sym in Hza.
          apply (same_rank_precedes d) in Hza as [Haz _].
          assert (precedes d x y = true); [|congruence].
          apply (precedes_trans d x a y); [done|].
          by apply (precedes_trans d a z y). }
        constructor; [apply Hno, precedes_refl|].
        eapply Forall_impl; [exact Hx|]. intros a Ha. by apply Hno.
Qed.
End MergeFacts.

Section MergeSortFacts.
Context {A : Type} `{TotalCmp A}.
Implicit Types (x y z : A) (d : bool) (l r arr R : list A).

Lemma short_sorted d arr :
  length arr ≤ 1 → StronglySorted (goes_before d) arr.
Proof.
  destruct arr as [|x [|y arr]]; simpl; intros Hn; [constructor| |lia].
  by repeat constructor.
Qed.

Lemma merge_sort_sorted_peers arr d :
  ∃ R, merge_sort arr d = Some R
       ∧ StronglySorted (goes_before d) R
       ∧ ∀ z, peers z R = peers z arr.
Proof.
  apply (merge_sort_rule d
           (λ arr R, StronglySorted (goes_before d) R
                     ∧ ∀ z, peers z R = peers z arr)).
  - intros a Ha. split; [by apply short_sorted|done].
  - intros a ls rs _ [Hls Hpl] [Hrs Hpr]. split.
    + by apply merge_lists_sorted.
    + intros z. rewrite merge_lists_peers, Hpl, Hpr by done.
      unfold peers. by rewrite <- filter_app, take_drop.
Qed.

(** Two sorted lists that list the elements of every rank in the same
    order are the same list. *)
Lemma sorted_peers_unique d l1 : ∀ l2,
  StronglySorted (goes_before d) l1 →
  StronglySorted (goes_before d) l2 →
  (∀ z, peers z l1 = peers z l2) →
  l1 = l2.
Proof.
  induction l1 as [|a l1 IH]; intros l2 Hs1 Hs2 Hp.
  - destruct l2 as [|b l2]; [done|].
    specialize (Hp b). unfold peers in Hp.
    by rewrite filter_nil, filter_cons_True in Hp by apply same_rank_refl.
  - destruct l2 as [|b l2].
    { specialize (Hp a). unfold peers in Hp.
      by rewrite filter_nil, filter_cons_True in Hp by apply same_rank_refl. }
    apply StronglySorted_inv in Hs1 as [Hs1 Ha].
    apply StronglySorted_inv in Hs2 as [Hs2 Hb].
    rewrite Forall_forall in Ha, Hb.
    assert (a ∈ b :: l2) as Hab.
    { pose proof (Hp a) as Hpa. unfold peers in Hpa.
      rewrite (filter_cons_True _ a) in Hpa by apply same_rank_refl.
      assert (a ∈ filter (λ c, same_rank a c = true) (b :: l2)) as Hin
        by (rewrite <- Hpa; by left).
      by apply list_elem_of_filter in Hin as [_ ?]. }
    assert (b ∈ a :: l1) as Hba.
    { pose proof (Hp b) as Hpb. unfold peers in Hpb.
      rewrite (filter_cons_True _ b (l2)) in Hpb by apply same_rank_refl.
      assert (b ∈ filter (λ c, same_rank b c = true) (a :: l1)) as Hin
        by (rewrite Hpb; by left).
      by apply list_elem_of_filter in Hin as [_ ?]. }
    assert (goes_before d b a) as Hle1.
    { apply elem_of_cons in Hab as [->|?]; [apply precedes_refl|by apply Hb]. }
    assert (goes_before d a b) as Hle2.
    { apply elem_of_cons in Hba as [->|?]; [apply precedes_refl|by apply Ha]. }
    assert (same_rank a b = true) as Hrank
      by (by apply (same_rank_precedes d)).
    assert (a = b) as <-.
    { pose proof (Hp a) as Hpa. unfold peers in Hpa.
      rewrite !filter_cons_True in Hpa by (done || apply same_rank_refl).
      by injection Hpa. }
    f_equal. apply IH; [done..|].
    intros z. specialize (Hp z). unfold peers in *.
    rewrite !(filter_cons _ a) in Hp.
    destruct (decide (same_rank z a = true)); [by injection Hp|done].
Qed.
End MergeSortFacts.

(** ** Facts about tagged lists *)

Section Tagging.
Context {A : Type} `{TotalCmp A}.

#[global] Instance tagged_total : TotalCmp (A * nat).
Proof.
  split; cbn.
  - intros. apply py_le_total.
  - intros x y z Hxy Hyz. by apply (py_le_trans x.1 y.1 z.1).
  - intros. apply py_lt_le.
  - intros. apply py_gt_lt.
  - intros. apply py_ge_le.
Qed.




End Tagging.

(** ** Sorting a tagged list sorts its keys *)

Section TaggedRuns.
Context {A : Type} `{Cmp A}.
Implicit Types (d : bool) (T l r : list (A * nat)).




End TaggedRuns.

(** ** The traced passes compute the same list, and count comparisons *)

Section TracedBubble.
Context {A : Type} `{Cmp A}.
Implicit Types (p q l arr : list A) (reverse sw : bool) (out : list (line A)).

Lemma traced_inner_carry reverse m : ∀ p x l sw steps out,
  m ≤ length l →
  ∃ out',
    for_each (traced_step reverse) (seq (length p) m)
             (p ++ x :: l, sw, steps, out)
    = Some (p ++ (carry reverse m x l).1,
            sw || (carry reverse m x l).2, steps + m, out')
    ∧ ((carry reverse m x l).2 = false → out' = out).
Proof.
  induction m as [|m IH]; intros p x l sw steps out Hm.
  - exists out. simpl. by rewrite orb_false_r, Nat.add_0_r.
  - destruct l as [|y l]; [simpl in Hm; lia|]. simpl in Hm.
    cbn [seq for_each]. rewrite traced_step_spec. cbn [mbind option_bind].
    replace (S (length p)) with (length (p ++ [y]))
      by (rewrite length_app; simpl; lia).
    cbn [carry]. destruct (out_of_order reverse x y).
    + rewrite (app_cons_snoc p y (x :: l)).
      destruct (IH (p ++ [y]) x l true (steps + 1)
                   (out ++ [SwapLine (steps + 1) x y ((p ++ [y]) ++ x :: l)]))
        as (out' & -> & _); [lia|].
      exists out'. cbn [fst snd]. rewrite orb_true_r, <- app_cons_snoc.
      split; [|done]. do 3 f_equal. lia.
    + replace (length (p ++ [y])) with (length (p ++ [x]))
        by (rewrite !length_app; simpl; lia).
      rewrite (app_cons_snoc p x (y :: l)).
      destruct (IH (p ++ [x]) y l sw (steps + 1) out) as (out' & -> & Hout);
        [lia|].
      exists out'. cbn [fst snd]. rewrite <- app_cons_snoc.
      split; [|done]. do 3 f_equal. lia.
Qed.

Lemma traced_passes_fun reverse n passes : ∀ arr steps out,
  length arr = n →
  ∃ steps' out',
    traced_passes reverse n passes (arr, steps, out)
    = Some (passes_fun reverse n passes arr, steps', out').
Proof.
  induction passes as [|i rest IH]; intros arr steps out Hn.
  - exists steps, out. by destruct arr.
  - cbn [traced_passes]. unfold range. rewrite Nat.sub_0_r.
    destruct arr as [|x l].
    + simpl in Hn. subst n. by do 2 eexists.
    + simpl in Hn.
      destruct (traced_inner_carry reverse (n - i - 1) [] x l false steps
                  (out ++ [PassHeader (i + 1)])) as (out' & Hrun & _); [lia|].
      cbn [length app] in Hrun. rewrite Hrun.
      cbn [mbind option_bind app orb passes_fun].
      destruct (carry reverse (n - i - 1) x l).2 eqn:Hsw; cbn [negb].
      * apply IH. rewrite carry_length. lia.
      * by do 2 eexists.
Qed.

Lemma bubble_sort_with_steps_fun arr reverse :
  ∃ steps out,
    bubble_sort_with_steps arr reverse
    = Some ((passes_fun reverse (length arr) (seq 0 (length arr)) arr, steps),
            out).
Proof.
  unfold bubble_sort_with_steps, range. rewrite Nat.sub_0_r.
  destruct (traced_passes_fun reverse (length arr) (seq 0 (length arr)) arr 0
              [SourceArray arr; Rule]) as (steps & out & ->); [done|].
  cbn [mbind option_bind]. by do 2 eexists.
Qed.

Context `{!TotalCmp A}.

Lemma ordered_cons_inv d x y l :
  ordered d (x :: y :: l) → precedes d x y = true ∧ ordered d (y :: l).
Proof.
  intros Ho. split.
  - by apply (Ho 0).
  - intros i a b Ha Hb. apply (Ho (S i)); done.
Qed.

(** On a list that is in order a pass exchanges nothing. *)
Lemma carry_ordered d m : ∀ x l,
  ordered d (x :: l) → (carry d m x l).2 = false.
Proof.
  induction m as [|m IH]; intros x [|y l] Ho; simpl; try done.
  apply ordered_cons_inv in Ho as [Hxy Ho].
  rewrite out_of_order_spec, Hxy. simpl. by apply IH.
Qed.

Lemma bubble_sort_with_steps_ordered x l reverse :
  ordered reverse (x :: l) →
  bubble_sort_with_steps (x :: l) reverse
  = Some ((x :: l, length l),
          [SourceArray (x :: l); Rule; PassHeader 1; NoSwaps; Rule;
           ResultLine (x :: l); TotalSteps (length l)]).
Proof.
  intros Ho. unfold bubble_sort_with_steps, range. cbn [length].
  rewrite Nat.sub_0_r. cbn [seq traced_passes]. unfold range.
  replace (S (length l) - 0 - 1 - 0) with (length l) by lia.
  destruct (traced_inner_carry reverse (length l) [] x l false 0
              ([SourceArray (x :: l); Rule] ++ [PassHeader (0 + 1)]))
    as (out' & Hrun & Hout); [done|].
  cbn [length app] in Hrun |- *. rewrite Hrun.
  pose proof (carry_ordered reverse (length l) x l Ho) as Hsw.
  destruct (carry_clean reverse (length l) x l Hsw) as [-> _].
  rewrite Hsw, (Hout Hsw). done.
Qed.
End TracedBubble.

(** ** Integers are totally ordered *)

#[export] Instance Z_total : TotalCmp Z.
Proof.
  split; cbn; intros.
  - destruct (Z.leb_spec x y), (Z.leb_spec y x); auto; lia.
  - apply Z.leb_le. etrans; by apply Z.leb_le.
  - by rewrite Z.ltb_antisym.
  - apply Z.gtb_ltb.
  - apply Z.geb_leb.
Qed.

(** ** The cost reported by merge_sort_with_steps *)

Section MergeCost.
Context {A : Type} `{Cmp A}.
Implicit Types (arr R : list A) (d : bool).

Lemma pow2_le_1 k n : n ≤ 1 → n = 2 ^ k → k = 0.
Proof.
  destruct k as [|k]; [done|]. rewrite Nat.pow_succ_r'.
  pose proof (Nat.pow_nonzero 2 k). lia.
Qed.

Lemma merge_sort_with_steps_cost arr d depth :
  ∃ R ops out,
    merge_sort_with_steps arr d depth = Some ((R, ops), out)
    ∧ length R = length arr
    ∧ (∀ k, length arr ≤ 2 ^ k → ops ≤ length arr * k)
    ∧ (∀ k, length arr = 2 ^ k → ops = 2 ^ k * k).
Proof.
  apply (merge_sort_with_steps_rule d
           (λ arr _ R ops _,
              length R = length arr
              ∧ (∀ k, length arr ≤ 2 ^ k → ops ≤ length arr * k)
              ∧ (∀ k, length arr = 2 ^ k → ops = 2 ^ k * k))).
  - intros a _ Ha. split; [done|]. split; [lia|].
    intros k Hk. rewrite (pow2_le_1 k (length a)); [lia|done..].
  - intros a _ ls rs ol or _ _ Ha (Hll & Hbl & Hel) (Hlr & Hbr & Her).
    rewrite length_take in Hll, Hbl, Hel.
    rewrite length_drop in Hlr, Hbr, Her.
    set (n := length a) in *.
    pose proof (Nat.div_mod_eq n 2) as Hdiv.
    pose proof (Nat.mod_upper_bound n 2) as Hmod.
    assert (n / 2 < n) by lia.
    rewrite (Nat.min_l (n / 2) n) in Hll, Hbl, Hel by lia.
    rewrite merge_lists_length, Hll, Hlr.
    split; [lia|]. split.
    + intros [|k] Hk; [simpl in Hk; lia|]. rewrite Nat.pow_succ_r' in Hk.
      specialize (Hbl k). specialize (Hbr k).
      assert (n / 2 * k + (n - n / 2) * k = n * k) as Hsum
        by (rewrite <- Nat.mul_add_distr_r; f_equal; lia).
      rewrite Nat.mul_succ_r. lia.
    + intros [|k] Hk; [simpl in Hk; lia|]. rewrite Nat.pow_succ_r' in Hk.
      rewrite (Hel k), (Her k) by lia.
      rewrite Nat.pow_succ_r', Nat.mul_succ_r. lia.
Qed.
End MergeCost.

(** * Part II, proofs: the store-level programs compute what the
    value-level functions return *)

Section StoreOps.
Context {A : Type} `{Cmp A}.
Implicit Types (h : list (list A)) (out : list (line A)) (v cur : list A).
Implicit Types (s : Store.state A) (r : Store.ref).

Lemma bind_ok {X Y : Type} (m : Store.M A X) (k : X → Store.M A Y) s x s' :
  m s = Store.Ok (x, s') → Store.bind m k s = k x s'.
Proof. unfold Store.bind. by intros ->. Qed.

Lemma load_ok s r v :
  Store.objects s !! r = Some v → Store.load r s = Store.Ok (v, s).
Proof. unfold Store.load. by intros ->. Qed.

Lemma len_ok s r v :
  Store.objects s !! r = Some v → Store.len r s = Store.Ok (length v, s).
Proof. intros Hr. unfold Store.len. by rewrite (bind_ok _ _ _ _ _ (load_ok _ _ _ Hr)). Qed.

Lemma getitem_ok s r v i x :
  Store.objects s !! r = Some v → v !! i = Some x →
  Store.getitem r i s = Store.Ok (x, s).
Proof.
  intros Hr Hi. unfold Store.getitem.
  rewrite (bind_ok _ _ _ _ _ (load_ok _ _ _ Hr)). by rewrite Hi.
Qed.

Lemma store_ok h out r v v' :
  h !! r = Some v →
  Store.store r v' (Store.State h out)
  = Store.Ok (tt, Store.State (<[r := v']> h) out).
Proof.
  intros Hr. unfold Store.store. cbn.
  rewrite decide_True; [done|]. by eapply lookup_lt_Some.
Qed.

Lemma setitem_ok h out r v i x :
  h !! r = Some v → i < length v →
  Store.setitem r i x (Store.State h out)
  = Store.Ok (tt, Store.State (<[r := <[i := x]> v]> h) out).
Proof.
  intros Hr Hi. unfold Store.setitem.
  rewrite (bind_ok _ _ _ _ _ (load_ok (Store.State h out) _ _ Hr)).
  rewrite decide_True by done. by eapply store_ok.
Qed.

Lemma append_ok h out r v x :
  h !! r = Some v →
  Store.append r x (Store.State h out)
  = Store.Ok (tt, Store.State (<[r := v ++ [x]]> h) out).
Proof.
  intros Hr. unfold Store.append.
  rewrite (bind_ok _ _ _ _ _ (load_ok (Store.State h out) _ _ Hr)).
  by eapply store_ok.
Qed.

Lemma list_copy_ok h out r v :
  h !! r = Some v →
  Store.list_copy r (Store.State h out)
  = Store.Ok (length h, Store.State (h ++ [v]) out).
Proof.
  intros Hr. unfold Store.list_copy.
  by rewrite (bind_ok _ _ _ _ _ (load_ok (Store.State h out) _ _ Hr)).
Qed.

Lemma slice_to_ok h out r v mid :
  h !! r = Some v →
  Store.slice_to r mid (Store.State h out)
  = Store.Ok (length h, Store.State (h ++ [take mid v]) out).
Proof.
  intros Hr. unfold Store.slice_to.
  by rewrite (bind_ok _ _ _ _ _ (load_ok (Store.State h out) _ _ Hr)).
Qed.

Lemma slice_from_ok h out r v mid :
  h !! r = Some v →
  Store.slice_from r mid (Store.State h out)
  = Store.Ok (length h, Store.State (h ++ [drop mid v]) out).
Proof.
  intros Hr. unfold Store.slice_from.
  by rewrite (bind_ok _ _ _ _ _ (load_ok (Store.State h out) _ _ Hr)).
Qed.

Lemma print_ok h out (l : line A) :
  Store.print l (Store.State h out)
  = Store.Ok (tt, Store.State h (out ++ [l])).
Proof. done. Qed.

Lemma lookup_last h cur : (h ++ [cur]) !! length h = Some cur.
Proof. by apply list_lookup_middle. Qed.

Lemma insert_last h cur v : <[length h := v]> (h ++ [cur]) = h ++ [v].
Proof. by rewrite insert_app_r_alt, Nat.sub_diag. Qed.
End StoreOps.

(** [run_op lem] runs the next operation of a store-level program, whose
    outcome is given by [lem]; [store_lookup] finds the object behind a
    reference in a store that has grown. *)
Ltac store_lookup :=
  cbn [Store.objects];
  repeat first [eassumption | apply lookup_last | apply lookup_app_l_Some].

Ltac run_op lem :=
  erewrite bind_ok; [|eapply lem; try store_lookup; try done].

Section StoreBubble.
Context {A : Type} `{Cmp A}.
Implicit Types (h : list (list A)) (out : list (line A)) (cur : list A).

Lemma swap_items_sim h out cur cur' j :
  swap_items cur j = Some cur' →
  Store.swap_items (length h) j (Store.State (h ++ [cur]) out)
  = Store.Ok (tt, Store.State (h ++ [cur']) out).
Proof.
  unfold swap_items, getitem, setitem. intros Hs.
  destruct (cur !! (j + 1)) as [a|] eqn:Ha; [|done].
  destruct (cur !! j) as [b|] eqn:Hb; [|done]. cbn in Hs.
  destruct (decide (j < length cur)) as [Hj|]; [|done]. cbn in Hs.
  destruct (decide (j + 1 < length (<[j:=a]> cur))) as [Hj'|]; [|done].
  injection Hs as <-. unfold Store.swap_items.
  run_op (getitem_ok (A:=A)). run_op (getitem_ok (A:=A)).
  run_op (setitem_ok (A:=A)). rewrite insert_last.
  erewrite setitem_ok; [|apply lookup_last|done].
  by rewrite insert_last.
Qed.

Lemma bubble_step_sim h out reverse j cur sw cur' sw' :
  bubble_step reverse j (cur, sw) = Some (cur', sw') →
  Store.bubble_step (length h) reverse j sw (Store.State (h ++ [cur]) out)
  = Store.Ok (sw', Store.State (h ++ [cur']) out).
Proof.
  unfold bubble_step, getitem. intros Hs.
  destruct (cur !! j) as [x|] eqn:Hx; [|done].
  destruct (cur !! (j + 1)) as [y|] eqn:Hy; [|done]. cbn in Hs.
  unfold Store.bubble_step.
  run_op (getitem_ok (A:=A)). run_op (getitem_ok (A:=A)).
  destruct reverse; [destruct (py_lt x y)|destruct (py_gt x y)];
    try (by injection Hs as <- <-);
    destruct (swap_items cur j) as [c|] eqn:Hc; try done;
    cbn in Hs; injection Hs as <- <-;
    by rewrite (bind_ok _ _ _ _ _ (swap_items_sim h out _ _ _ Hc)).
Qed.

Lemma inner_loop_sim h out reverse js : ∀ cur sw cur' sw',
  for_each (bubble_step reverse) js (cur, sw) = Some (cur', sw') →
  Store.for_each (Store.bubble_step (length h) reverse) js sw
                 (Store.State (h ++ [cur]) out)
  = Store.Ok (sw', Store.State (h ++ [cur']) out).
Proof.
  induction js as [|j js IH]; intros cur sw cur' sw' Hs;
    cbn [for_each] in Hs.
  - by injection Hs as <- <-.
  - destruct (bubble_step reverse j (cur, sw)) as [[c b]|] eqn:Hj; [|done].
    cbn in Hs. cbn [Store.for_each].
    rewrite (bind_ok _ _ _ _ _ (bubble_step_sim h out _ _ _ _ _ _ Hj)).
    by apply IH.
Qed.

Lemma bubble_passes_sim h out reverse n passes : ∀ cur cur',
  bubble_passes reverse n passes cur = Some cur' →
  Store.bubble_passes (length h) reverse n passes
                      (Store.State (h ++ [cur]) out)
  = Store.Ok (tt, Store.State (h ++ [cur']) out).
Proof.
  induction passes as [|i rest IH]; intros cur cur' Hs;
    cbn [bubble_passes] in Hs.
  - by injection Hs as <-.
  - destruct (for_each (bubble_step reverse) (range 0 (n - i - 1))
                (cur, false)) as [[c b]|] eqn:Hi; [|done].
    cbn in Hs. cbn [Store.bubble_passes].
    rewrite (bind_ok _ _ _ _ _ (inner_loop_sim h out _ _ _ _ _ _ Hi)).
    destruct b; cbn in Hs |- *; [by apply IH|by injection Hs as <-].
Qed.

Theorem bubble_sort_sim s arr S R reverse :
  Store.objects s !! arr = Some S →
  bubble_sort S reverse = Some R →
  Store.bubble_sort arr reverse s
  = Store.Ok (length (Store.objects s),
              Store.State (Store.objects s ++ [R]) (Store.stdout s)).
Proof.
  destruct s as [h out]. cbn. intros Harr Hs.
  unfold Store.bubble_sort.
  run_op (list_copy_ok (A:=A)). run_op (len_ok (A:=A)).
  unfold bubble_sort in Hs.
  by rewrite (bind_ok _ _ _ _ _ (bubble_passes_sim h out _ _ _ _ _ Hs)).
Qed.

Lemma traced_step_sim h pre reverse j cur sw steps o cur' sw' steps' o' :
  traced_step reverse j (cur, sw, steps, o) = Some (cur', sw', steps', o') →
  Store.traced_step (length h) reverse j (sw, steps)
                    (Store.State (h ++ [cur]) (pre ++ o))
  = Store.Ok ((sw', steps'), Store.State (h ++ [cur']) (pre ++ o')).
Proof.
  unfold traced_step, getitem. intros Hs.
  destruct (cur !! j) as [x|] eqn:Hx; [|done].
  destruct (cur !! (j + 1)) as [y|] eqn:Hy; [|done]. cbn in Hs.
  unfold Store.traced_step.
  run_op (getitem_ok (A:=A)). run_op (getitem_ok (A:=A)).
  destruct reverse; [destruct (py_lt x y)|destruct (py_gt x y)];
    try (by injection Hs as <- <- <- <-);
    destruct (swap_items cur j) as [c|] eqn:Hc; try done; cbn in Hs;
    destruct (c !! (j + 1)) as [a|] eqn:Ha; try done;
    destruct (c !! j) as [b|] eqn:Hb; try done; cbn in Hs;
    injection Hs as <- <- <- <-;
    rewrite (bind_ok _ _ _ _ _ (swap_items_sim h (pre ++ o) _ _ _ Hc));
    run_op (getitem_ok (A:=A)); run_op (getitem_ok (A:=A));
    run_op (load_ok (A:=A));
    run_op (print_ok (A:=A));
    by rewrite (assoc_L (++)).
Qed.

Lemma traced_loop_sim h pre reverse js : ∀ cur sw steps o cur' sw' steps' o',
  for_each (traced_step reverse) js (cur, sw, steps, o)
  = Some (cur', sw', steps', o') →
  Store.for_each (Store.traced_step (length h) reverse) js (sw, steps)
                 (Store.State (h ++ [cur]) (pre ++ o))
  = Store.Ok ((sw', steps'), Store.State (h ++ [cur']) (pre ++ o')).
Proof.
  induction js as [|j js IH]; intros cur sw steps o cur' sw' steps' o' Hs;
    cbn [for_each] in Hs.
  - by injection Hs as <- <- <- <-.
  - destruct (traced_step reverse j (cur, sw, steps, o))
      as [[[[c b] k] o1]|] eqn:Hj; [|done].
    cbn in Hs. cbn [Store.for_each].
    rewrite (bind_ok _ _ _ _ _ (traced_step_sim h pre _ _ _ _ _ _ _ _ _ _ Hj)).
    by apply IH.
Qed.

Lemma traced_passes_sim h pre reverse n passes : ∀ cur steps o cur' steps' o',
  traced_passes reverse n passes (cur, steps, o) = Some (cur', steps', o') →
  Store.traced_passes (length h) reverse n passes steps
                      (Store.State (h ++ [cur]) (pre ++ o))
  = Store.Ok (steps', Store.State (h ++ [cur']) (pre ++ o')).
Proof.
  induction passes as [|i rest IH]; intros cur steps o cur' steps' o' Hs;
    cbn [traced_passes] in Hs.
  - by injection Hs as <- <- <-.
  - destruct (for_each (traced_step reverse) (range 0 (n - i - 1))
                (cur, false, steps, o ++ [PassHeader (i + 1)]))
      as [[[[c b] k] o1]|] eqn:Hi; [|done].
    cbn in Hs. cbn [Store.traced_passes].
    run_op (print_ok (A:=A)). rewrite <- (assoc_L (++)).
    rewrite (bind_ok _ _ _ _ _
               (traced_loop_sim h pre _ _ _ _ _ _ _ _ _ _ Hi)).
    destruct b; cbn [negb] in Hs |- *.
    + run_op (print_ok (A:=A)). rewrite <- (assoc_L (++)). by apply IH.
    + injection Hs as <- <- <-.
      run_op (print_ok (A:=A)). by rewrite (assoc_L (++)).
Qed.

Theorem bubble_sort_with_steps_sim s arr S R steps out reverse :
  Store.objects s !! arr = Some S →
  bubble_sort_with_steps S reverse = Some ((R, steps), out) →
  Store.bubble_sort_with_steps arr reverse s
  = Store.Ok ((length (Store.objects s), steps),
              Store.State (Store.objects s ++ [R]) (Store.stdout s ++ out)).
Proof.
  destruct s as [h pre]. cbn. intros Harr Hs.
  unfold bubble_sort_with_steps in Hs.
  destruct (traced_passes reverse (length S) (range 0 (length S))
              (S, 0, [SourceArray S; Rule])) as [[[c k] o]|] eqn:Hp; [|done].
  cbn in Hs. injection Hs as <- <- <-.
  unfold Store.bubble_sort_with_steps.
  run_op (list_copy_ok (A:=A)). run_op (len_ok (A:=A)).
  run_op (load_ok (A:=A)).
  run_op (print_ok (A:=A)). run_op (print_ok (A:=A)).
  rewrite <- (assoc_L (++)). cbn [app].
  rewrite (bind_ok _ _ _ _ _ (traced_passes_sim h pre _ _ _ _ _ _ _ _ _ Hp)).
  run_op (print_ok (A:=A)). run_op (load_ok (A:=A)).
  run_op (print_ok (A:=A)). run_op (print_ok (A:=A)).
  unfold Store.ret. by rewrite <- !(assoc_L (++)).
Qed.
End StoreBubble.

Section StoreMerge.
Context {A : Type} `{Cmp A}.
Implicit Types (h : list (list A)) (out : list (line A)).
Implicit Types (L R res : list A).

Lemma bind_assoc {X Y Z : Type} (m : Store.M A X) (k1 : X → Store.M A Y)
    (k2 : Y → Store.M A Z) s :
  Store.bind (Store.bind m k1) k2 s
  = Store.bind m (λ x, Store.bind (k1 x) k2) s.
Proof. unfold Store.bind. by destruct (m s) as [[x s']| | |]. Qed.

Lemma bind_ret_l {X Y : Type} (x : X) (k : X → Store.M A Y) s :
  Store.bind (Store.ret x) k s = k x s.
Proof. done. Qed.

(** One iteration of the first loop of [merge] that continues. *)
Local Ltac merge_both_iter :=
  rewrite decide_True by lia; rewrite bind_assoc;
  run_op (len_ok (A:=A)); rewrite bind_ret_l;
  rewrite bool_decide_true by lia;
  run_op (getitem_ok (A:=A)); run_op (getitem_ok (A:=A));
  match goal with Hc : _ = _ :> bool |- _ => rewrite Hc end;
  run_op (getitem_ok (A:=A)); run_op (append_ok (A:=A));
  rewrite insert_last;
  match goal with IH : context [Store.merge_both] |- _ => apply IH end;
  [done..|lia].

Lemma merge_both_sim h out lft rgt L R reverse res i j :
  h !! lft = Some L → h !! rgt = Some R →
  ∀ res' i' j',
    merge_both L R reverse res i j = Some (res', i', j') →
    ∀ fuel, length L - i + (length R - j) < fuel →
    Store.merge_both fuel lft rgt reverse (length h) i j
                     (Store.State (h ++ [res]) out)
    = Store.Ok ((i', j'), Store.State (h ++ [res']) out).
Proof.
  intros HL HR.
  funelim (merge_both L R reverse res i j); unfold getitem in *;
    intros res' i' j' Hs [|fuel] Hf; try lia; try done;
    cbn [Store.merge_both]; run_op (len_ok (A:=A)).
  - injection Hs as <- <- <-.
    destruct (decide (i < length lft)).
    + rewrite bind_assoc. run_op (len_ok (A:=A)). rewrite bind_ret_l.
      by rewrite bool_decide_false by lia.
    + by rewrite bind_ret_l.
  - merge_both_iter.
  - merge_both_iter.
  - merge_both_iter.
  - merge_both_iter.
Qed.

Lemma merge_rest_sim h out src L res i :
  h !! src = Some L →
  ∀ res' i',
    merge_rest L res i = Some (res', i') →
    ∀ fuel, length L - i < fuel →
    Store.merge_rest fuel src (length h) i (Store.State (h ++ [res]) out)
    = Store.Ok (i', Store.State (h ++ [res']) out).
Proof.
  intros HL.
  funelim (merge_rest L res i); unfold getitem in *;
    intros res' i' Hs [|fuel] Hf; try lia; try done;
    cbn [Store.merge_rest]; run_op (len_ok (A:=A)).
  - injection Hs as <- <-. by rewrite decide_False by done.
  - rewrite decide_True by done.
    run_op (getitem_ok (A:=A)). run_op (append_ok (A:=A)).
    rewrite insert_last.
    match goal with IH : context [Store.merge_rest] |- _ => apply IH end;
      [done..|lia].
Qed.

Theorem merge_sim h out lft rgt L R M reverse :
  h !! lft = Some L → h !! rgt = Some R →
  merge L R reverse = Some M →
  ∀ fuel, length L + length R < fuel →
  Store.merge fuel lft rgt reverse (Store.State h out)
  = Store.Ok (length h, Store.State (h ++ [M]) out).
Proof.
  intros HL HR Hs fuel Hf. unfold merge in Hs.
  destruct (merge_both L R reverse [] 0 0) as [[[r1 i] j]|] eqn:H1; [|done].
  cbn in Hs.
  destruct (merge_rest L r1 i) as [[r2 i']|] eqn:H2; [|done]. cbn in Hs.
  destruct (merge_rest R r2 j) as [[r3 j']|] eqn:H3; [|done]. cbn in Hs.
  injection Hs as <-. unfold Store.merge.
  unfold Store.bind at 1, Store.list_new, Store.alloc.
  cbn [Store.objects Store.stdout].
  rewrite (bind_ok _ _ _ _ _
             (merge_both_sim h out lft rgt L R reverse [] 0 0 HL HR
                             _ _ _ H1 fuel ltac:(lia))).
  rewrite (bind_ok _ _ _ _ _
             (merge_rest_sim h out lft L r1 i HL _ _ H2 fuel ltac:(lia))).
  by rewrite (bind_ok _ _ _ _ _
                (merge_rest_sim h out rgt R r2 j HR _ _ H3 fuel ltac:(lia))).
Qed.
End StoreMerge.

Section StoreMergeSort.
Context {A : Type} `{Cmp A}.
Implicit Types (h news : list (list A)) (out pre : list (line A)).
Implicit Types (arr R : list A) (d : bool).

Lemma merge_sort_sim arr d :
  ∃ R, merge_sort arr d = Some R ∧ merge_sort_runs d arr R.
Proof.
  apply (merge_sort_rule d (merge_sort_runs d)).
  - intros a Ha. exists 1. intros h out r [|fuel] Hr Hf; [lia|].
    exists []. cbn [Store.merge_sort]. run_op (len_ok (A:=A)).
    rewrite decide_True by done. rewrite app_nil_r.
    by apply list_copy_ok.
  - intros a ls rs Ha [fl Hl] [fr Hr].
    exists (S ((fl `max` fr) `max` S (length ls + length rs))).
    intros h out r [|fuel] Har Hf; [lia|].
    set (tk := take (length a / 2) a) in *.
    set (dr := drop (length a / 2) a) in *.
    destruct (Hl ((h ++ [tk]) ++ [dr]) out (length h) fuel)
      as [nl Hnl]; [store_lookup|lia|].
    destruct (Hr ((((h ++ [tk]) ++ [dr]) ++ nl) ++ [ls]) out
                 (length (h ++ [tk])) fuel)
      as [nr Hnr]; [store_lookup|lia|].
    exists ([tk; dr] ++ nl ++ [ls] ++ nr ++ [rs]).
    cbn [Store.merge_sort]. run_op (len_ok (A:=A)).
    rewrite decide_False by lia. run_op (len_ok (A:=A)).
    run_op (slice_to_ok (A:=A)). run_op (slice_from_ok (A:=A)).
    fold tk dr. rewrite (bind_ok _ _ _ _ _ Hnl).
    rewrite (bind_ok _ _ _ _ _ Hnr).
    erewrite merge_sim; [|store_lookup|store_lookup|apply merge_fun|lia].
    by rewrite <- !(assoc_L (++)).
Qed.

Lemma merge_sort_with_steps_sim arr d depth :
  ∃ R ops o,
    merge_sort_with_steps arr d depth = Some ((R, ops), o)
    ∧ merge_sort_with_steps_runs d arr depth R ops o.
Proof.
  apply (merge_sort_with_steps_rule d (merge_sort_with_steps_runs d)).
  - intros a dp Ha. exists 1. intros h pre r [|fuel] Hr Hf; [lia|].
    exists []. cbn [Store.merge_sort_with_steps].
    run_op (load_ok (A:=A)). run_op (print_ok (A:=A)).
    run_op (len_ok (A:=A)). rewrite decide_True by done.
    run_op (load_ok (A:=A)). run_op (print_ok (A:=A)).
    run_op (list_copy_ok (A:=A)). unfold Store.ret.
    by rewrite app_nil_r, <- !(assoc_L (++)).
  - intros a dp ls rs ol or out_l out_r Ha [fl Hl] [fr Hr].
    exists (S ((fl `max` fr) `max` S (length ls + length rs))).
    intros h pre r [|fuel] Har Hf; [lia|].
    set (tk := take (length a / 2) a) in *.
    set (dr := drop (length a / 2) a) in *.
    destruct (Hl ((h ++ [tk]) ++ [dr])
                 ((pre ++ [Sorting dp a]) ++ [Split dp tk dr])
                 (length h) fuel)
      as [nl Hnl]; [store_lookup|lia|].
    destruct (Hr ((((h ++ [tk]) ++ [dr]) ++ nl) ++ [ls])
                 (((pre ++ [Sorting dp a]) ++ [Split dp tk dr]) ++ out_l)
                 (length (h ++ [tk])) fuel)
      as [nr Hnr]; [store_lookup|lia|].
    exists ([tk; dr] ++ nl ++ [ls] ++ nr ++ [rs]).
    cbn [Store.merge_sort_with_steps].
    run_op (load_ok (A:=A)). run_op (print_ok (A:=A)).
    run_op (len_ok (A:=A)). rewrite decide_False by lia.
    run_op (len_ok (A:=A)).
    run_op (slice_to_ok (A:=A)). run_op (slice_from_ok (A:=A)).
    fold tk dr.
    run_op (load_ok (A:=A)). run_op (load_ok (A:=A)).
    run_op (print_ok (A:=A)).
    rewrite (bind_ok _ _ _ _ _ Hnl). rewrite (bind_ok _ _ _ _ _ Hnr).
    erewrite bind_ok;
      [|eapply merge_sim; [store_lookup|store_lookup|apply merge_fun|lia]].
    run_op (len_ok (A:=A)). run_op (len_ok (A:=A)).
    run_op (load_ok (A:=A)). run_op (load_ok (A:=A)).
    run_op (load_ok (A:=A)). run_op (print_ok (A:=A)).
    run_op (load_ok (A:=A)). run_op (print_ok (A:=A)).
    unfold Store.ret. by rewrite <- !(assoc_L (++)).
Qed.
End StoreMergeSort.

Section StoreFrame.
Context {A : Type} `{Cmp A}.
Implicit Types (h news : list (list A)) (s : Store.state A).

Lemma returns_new_list_shape h out out' news arr S R :
  h !! arr = Some S →
  returns_new_list (Store.State h out) arr S (length (h ++ news))
                   (Store.State ((h ++ news) ++ [R]) out') R.
Proof.
  intros Harr. pose proof (lookup_lt_Some _ _ _ Harr) as Hlt.
  repeat split; cbn [Store.objects].
  - by do 2 apply lookup_app_l_Some.
  - intros r0 v Hr0. by do 2 apply lookup_app_l_Some.
  - rewrite length_app. lia.
  - apply lookup_ge_None. rewrite length_app. lia.
  - apply lookup_last.
Qed.
End StoreFrame.

(** * The properties of the specification *)

(** C1. Permutation property: for every input list [S] and every
    direction [d], [bubble_sort S d] and [merge_sort S d] each return a
    list that is a permutation of [S] (same multiset of elements) and has
    the length of [S]. *)
Theorem sort_is_permutation {A : Type} `{Cmp A} (S : list A) (d : bool) :
  ∃ Rb Rm,
    bubble_sort S d = Some Rb ∧ merge_sort S d = Some Rm
    ∧ Rb ≡ₚ S ∧ length Rb = length S
    ∧ Rm ≡ₚ S ∧ length Rm = length S.
Proof.
  destruct (merge_sort_perm S d) as (Rm & Hm & Hpm).
  exists (passes_fun d (length S) (seq 0 (length S)) S), Rm.
  pose proof (passes_fun_perm d (length S) (seq 0 (length S)) S) as Hpb.
  split; [apply bubble_sort_fun|]. split; [done|].
  split; [done|]. split; [by rewrite Hpb|]. split; [done|]. by rewrite Hpm.
Qed.

(** C2. Ordering property: on a totally ordered element type, every
    adjacent pair of the list returned by [bubble_sort S d] and by
    [merge_sort S d] respects the ordering policy of [d]:
    [R[i] <= R[i+1]] for [d = False] and [R[i] >= R[i+1]] for
    [d = True]. *)
Theorem sort_is_ordered {A : Type} `{TotalCmp A} (S : list A) (d : bool) :
  ∃ Rb Rm,
    bubble_sort S d = Some Rb ∧ merge_sort S d = Some Rm
    ∧ (∀ i x y, Rb !! i = Some x → Rb !! (i + 1) = Some y →
                (if d then py_ge x y else py_le x y) = true)
    ∧ (∀ i x y, Rm !! i = Some x → Rm !! (i + 1) = Some y →
                (if d then py_ge x y else py_le x y) = true).
Proof.
  destruct (merge_sort_sorted_peers S d) as (Rm & Hm & Hsm & _).
  exists (passes_fun d (length S) (seq 0 (length S)) S), Rm.
  split; [apply bubble_sort_fun|]. split; [done|]. split.
  - apply passes_fun_ordered.
  - by apply sorted_ordered.
Qed.

Lemma sort_is_ordered_witness :
  ∃ Rb Rm,
    bubble_sort [5; 2; 8; 1; 9]%Z true = Some Rb
    ∧ merge_sort [5; 2; 8; 1; 9]%Z true = Some Rm
    ∧ (∀ i x y, Rb !! i = Some x → Rb !! (i + 1) = Some y →
                py_ge x y = true)
    ∧ (∀ i x y, Rm !! i = Some x → Rm !! (i + 1) = Some y →
                py_ge x y = true).
Proof. exact (sort_is_ordered (H0 := Z_total) [5; 2; 8; 1; 9]%Z true). Defined.




(** C4 as stated, for every input list, fails for a list of floats that
    holds [nan]: on [[2.0, nan, 1.0]] ascending no adjacent pair is out
    of order for [bubble_sort], which returns the list as it is, while
    [merge_sort] returns [[1.0, nan, 2.0]]. *)
Lemma sorts_agree_counterexample :
  bubble_sort [2.0; nan; 1.0]%float false = Some [2.0; nan; 1.0]%float
  ∧ merge_sort [2.0; nan; 1.0]%float false = Some [1.0; nan; 2.0]%float
  ∧ [2.0; nan; 1.0]%float ≠ [1.0; nan; 2.0]%float.
Proof.
  split; [by vm_compute|]. split; [by vm_compute|]. intros Heq.
  apply (f_equal (λ l, match l with
                       | x :: _ => PrimFloat.leb x 1.0
                       | [] => true
                       end)) in Heq.
  vm_compute in Heq. discriminate Heq.
Qed.

(** C4, amended. Cross-algorithm agreement: on a totally ordered element
    type, [bubble_sort S d] and [merge_sort S d] return the same list. *)
Theorem sorts_agree {A : Type} `{TotalCmp A} (S : list A) (d : bool) :
  ∃ R, bubble_sort S d = Some R ∧ merge_sort S d = Some R.
Proof.
  destruct (merge_sort_sorted_peers S d) as (Rm & Hm & Hsm & Hpm).
  exists Rm. split; [|done]. rewrite bubble_sort_fun. f_equal.
  apply (sorted_peers_unique d); [|done|].
  - apply passes_fun_sorted; try done.
    + rewrite Nat.sub_0_r, drop_all. constructor.
    + rewrite Nat.sub_0_r, drop_all. intros a b _ Hb.
      by apply elem_of_nil in Hb.
  - intros z. by rewrite passes_fun_peers, Hpm.
Qed.

Lemma sorts_agree_witness :
  ∃ R, bubble_sort [5; 2; 8; 1; 9]%Z true = Some R
       ∧ merge_sort [5; 2; 8; 1; 9]%Z true = Some R.
Proof. exact (sorts_agree (H0 := Z_total) [5; 2; 8; 1; 9]%Z true). Defined.

(** C5. Tracing does not alter the result: the list returned by
    [bubble_sort_with_steps S d] is the list returned by
    [bubble_sort S d], and the list returned by
    [merge_sort_with_steps S d] (at any depth) is the list returned by
    [merge_sort S d]. *)
Theorem tracing_keeps_result {A : Type} `{Cmp A} (S : list A) (d : bool) :
  (∃ R steps out,
      bubble_sort_with_steps S d = Some ((R, steps), out)
      ∧ bubble_sort S d = Some R)
  ∧ (∀ depth, ∃ R ops out,
      merge_sort_with_steps S d depth = Some ((R, ops), out)
      ∧ merge_sort S d = Some R).
Proof.
  split.
  - destruct (bubble_sort_with_steps_fun S d) as (steps & out & Hrun).
    do 3 eexists. split; [exact Hrun|]. apply bubble_sort_fun.
  - intros depth.
    apply (merge_sort_with_steps_rule d
             (λ arr _ R _ _, merge_sort arr d = Some R)).
    + intros arr _ Harr. rewrite merge_sort_step.
      by rewrite decide_True by done.
    + intros arr _ ls rs _ _ _ _ Harr Hls Hrs.
      rewrite merge_sort_step, decide_False by lia.
      rewrite Hls, Hrs. cbn [mbind option_bind]. apply merge_fun.
Qed.

(** C6. Non-mutation: whatever the store and wherever the caller's list
    [S] lives in it, a call of [bubble_sort], [bubble_sort_with_steps],
    [merge_sort] or [merge_sort_with_steps] on it returns (for the two
    merge sorts: with any large enough bound on loops and depth) a
    reference to a list object that did not exist before, different from
    the caller's, and leaves the caller's list and every other existing
    object unchanged; the new object holds the list the value-level
    function returns. *)
Theorem sorting_leaves_input_alone {A : Type} `{Cmp A}
    (s : Store.state A) (arr : Store.ref) (S : list A) (d : bool) :
  Store.objects s !! arr = Some S →
  (∃ r s' R,
      Store.bubble_sort arr d s = Store.Ok (r, s')
      ∧ returns_new_list s arr S r s' R
      ∧ bubble_sort S d = Some R)
  ∧ (∃ r s' R steps out,
      Store.bubble_sort_with_steps arr d s = Store.Ok ((r, steps), s')
      ∧ returns_new_list s arr S r s' R
      ∧ bubble_sort_with_steps S d = Some ((R, steps), out))
  ∧ (∃ fuel0, ∀ fuel, fuel0 ≤ fuel → ∃ r s' R,
      Store.merge_sort fuel arr d s = Store.Ok (r, s')
      ∧ returns_new_list s arr S r s' R
      ∧ merge_sort S d = Some R)
  ∧ (∀ depth, ∃ fuel0, ∀ fuel, fuel0 ≤ fuel → ∃ r s' R ops out,
      Store.merge_sort_with_steps fuel arr d depth s
      = Store.Ok ((r, ops), s')
      ∧ returns_new_list s arr S r s' R
      ∧ merge_sort_with_steps S d depth = Some ((R, ops), out)).
Proof.
  destruct s as [h pre]. cbn [Store.objects]. intros Harr.
  split; [|split; [|split]].
  - pose proof (bubble_sort_fun S d) as HR.
    do 3 eexists. split; [by eapply bubble_sort_sim|]. split; [|done].
    cbn [Store.objects Store.stdout].
    rewrite <- (app_nil_r h) at 2 3.
    by apply returns_new_list_shape.
  - destruct (bubble_sort_with_steps_fun S d) as (steps & out & HR).
    do 5 eexists. split; [by eapply bubble_sort_with_steps_sim|].
    split; [|done]. cbn [Store.objects Store.stdout].
    rewrite <- (app_nil_r h) at 2 3.
    by apply returns_new_list_shape.
  - destruct (merge_sort_sim S d) as (R & HR & fuel0 & Hrun).
    exists fuel0. intros fuel Hf.
    destruct (Hrun h pre arr fuel Harr Hf) as [news Hnews].
    do 3 eexists. split; [exact Hnews|]. split; [|done].
    by apply returns_new_list_shape.
  - intros depth.
    destruct (merge_sort_with_steps_sim S d depth)
      as (R & ops & out & HR & fuel0 & Hrun).
    exists fuel0. intros fuel Hf.
    destruct (Hrun h pre arr fuel Harr Hf) as [news Hnews].
    do 5 eexists. split; [exact Hnews|]. split; [|done].
    by apply returns_new_list_shape.
Qed.

Lemma sorting_leaves_input_alone_witness :
  let s := Store.State [[7]%Z; [5; 2; 8; 1; 9]%Z] [] in
  (∃ r s' R,
      Store.bubble_sort 1 true s = Store.Ok (r, s')
      ∧ returns_new_list s 1 [5; 2; 8; 1; 9]%Z r s' R
      ∧ bubble_sort [5; 2; 8; 1; 9]%Z true = Some R)
  ∧ (∃ r s' R steps out,
      Store.bubble_sort_with_steps 1 true s = Store.Ok ((r, steps), s')
      ∧ returns_new_list s 1 [5; 2; 8; 1; 9]%Z r s' R
      ∧ bubble_sort_with_steps [5; 2; 8; 1; 9]%Z true
        = Some ((R, steps), out))
  ∧ (∃ fuel0, ∀ fuel, fuel0 ≤ fuel → ∃ r s' R,
      Store.merge_sort fuel 1 true s = Store.Ok (r, s')
      ∧ returns_new_list s 1 [5; 2; 8; 1; 9]%Z r s' R
      ∧ merge_sort [5; 2; 8; 1; 9]%Z true = Some R)
  ∧ (∀ depth, ∃ fuel0, ∀ fuel, fuel0 ≤ fuel → ∃ r s' R ops out,
      Store.merge_sort_with_steps fuel 1 true depth s
      = Store.Ok ((r, ops), s')
      ∧ returns_new_list s 1 [5; 2; 8; 1; 9]%Z r s' R
      ∧ merge_sort_with_steps [5; 2; 8; 1; 9]%Z true depth
        = Some ((R, ops), out)).
Proof.
  apply (sorting_leaves_input_alone
           (Store.State [[7]%Z; [5; 2; 8; 1; 9]%Z] []) 1
           [5; 2; 8; 1; 9]%Z true).
  reflexivity.
Defined.

(** C7 as stated fails on the empty list, which is sorted: no pass is
    made and the step count is [0], not [n - 1 = -1]. *)
Lemma sorted_input_steps_counterexample :
  ordered false ([] : list Z)
  ∧ ∃ steps out,
      bubble_sort_with_steps ([] : list Z) false = Some (([], steps), out)
      ∧ Z.of_nat steps ≠ (Z.of_nat (length ([] : list Z)) - 1)%Z
      ∧ ∀ k, PassHeader k ∉ out.
Proof.
  split; [by intros i x y Hx|].
  exists 0, [SourceArray []; Rule; Rule; ResultLine []; TotalSteps 0].
  split; [done|]. split; [done|].
  intros k Hk. repeat (apply elem_of_cons in Hk as [Hk|Hk]; [done|]).
  by apply elem_of_nil in Hk.
Qed.

(** C7, amended. Step-count law on sorted input: on a totally ordered
    element type, for every non-empty list [S] of length [n] that is
    already sorted ascending, [bubble_sort_with_steps S False] makes
    exactly one pass, exchanges nothing and returns [(S, n - 1)]; on the
    empty list it makes no pass and returns [([], 0)]. *)
Theorem sorted_input_steps {A : Type} `{TotalCmp A} (S : list A) :
  ordered false S →
  bubble_sort_with_steps S false =
  match S with
  | [] => Some (([], 0),
                [SourceArray []; Rule; Rule; ResultLine []; TotalSteps 0])
  | _ :: _ =>
      Some ((S, length S - 1),
            [SourceArray S; Rule; PassHeader 1; NoSwaps; Rule;
             ResultLine S; TotalSteps (length S - 1)])
  end.
Proof.
  intros Ho. destruct S as [|x l]; [done|].
  rewrite (bubble_sort_with_steps_ordered x l false Ho).
  cbn [length]. by rewrite Nat.sub_1_r.
Qed.

Lemma sorted_input_steps_witness :
  bubble_sort_with_steps [1; 2; 3; 4; 5]%Z false =
  Some (([1; 2; 3; 4; 5]%Z, 4),
        [SourceArray [1; 2; 3; 4; 5]%Z; Rule; PassHeader 1; NoSwaps; Rule;
         ResultLine [1; 2; 3; 4; 5]%Z; TotalSteps 4]).
Proof.
  apply (sorted_input_steps (H0 := Z_total) [1; 2; 3; 4; 5]%Z).
  intros i x y Hx Hy.
  do 5 (destruct i as [|i];
        [cbn in Hx, Hy;
         first [discriminate Hy
               |injection Hx as <-; injection Hy as <-; reflexivity]|]).
  cbn in Hx. discriminate Hx.
Defined.

(** C8 as stated fails for [n = 2], a power of two: the count is [2],
    not [n - 1 = 1]. *)
Lemma merge_steps_counterexample :
  ∃ R ops out,
    merge_sort_with_steps [2; 1]%Z false 0 = Some ((R, ops), out)
    ∧ length [2; 1]%Z = 2 ^ 1
    ∧ ops ≠ length [2; 1]%Z - 1.
Proof.
  do 3 eexists. split; [vm_compute; reflexivity|]. split; [reflexivity|].
  cbn. lia.
Qed.

(** C8, amended. Merge-sort step-count law: for every input list of
    length [n] the operation count returned by [merge_sort_with_steps]
    is at most [n * ceil(log2 n)], and it is exactly [n * log2 n] when
    [n] is a power of two, [n = 2 ^ k] giving [2 ^ k * k]. *)
Theorem merge_steps_bound {A : Type} `{Cmp A}
    (S : list A) (d : bool) (depth : nat) :
  ∃ R ops out,
    merge_sort_with_steps S d depth = Some ((R, ops), out)
    ∧ ops ≤ length S * Nat.log2_up (length S)
    ∧ (∀ k, length S = 2 ^ k → ops = 2 ^ k * k).
Proof.
  destruct (merge_sort_with_steps_cost S d depth)
    as (R & ops & out & Hrun & _ & Hbound & Hexact).
  exists R, ops, out. split; [done|]. split; [|done].
  apply Hbound. destruct (length S) as [|n] eqn:Hn; [simpl; lia|].
  apply Nat.log2_log2_up_spec. lia.
Qed.

Lemma merge_steps_bound_witness :
  ∃ R ops out,
    merge_sort_with_steps [3; 1; 4; 2]%Z false 0 = Some ((R, ops), out)
    ∧ ops ≤ 4 * Nat.log2_up 4
    ∧ ops = 2 ^ 2 * 2.
Proof.
  destruct (merge_steps_bound [3; 1; 4; 2]%Z false 0)
    as (R & ops & out & Hrun & Hbound & Hexact).
  exists R, ops, out. split; [exact Hrun|]. split; [exact Hbound|].
  exact (Hexact 2 eq_refl).
Defined.

(** C9. Termination: for every list and either direction the four
    sorting functions return a result (no loop runs forever and no index
    is out of range); and a list of two or more elements is split at
    [len // 2] into two strictly shorter halves whose lengths add up to
    its length, which is what the recursion of [merge_sort] descends
    on. *)
Theorem sorts_terminate {A : Type} `{Cmp A} (S : list A) (d : bool) :
  (∃ R, bubble_sort S d = Some R)
  ∧ (∃ R steps out, bubble_sort_with_steps S d = Some ((R, steps), out))
  ∧ (∃ R, merge_sort S d = Some R)
  ∧ (∀ depth, ∃ R ops out,
        merge_sort_with_steps S d depth = Some ((R, ops), out))
  ∧ (2 ≤ length S →
     length (take (length S / 2) S) < length S
     ∧ length (drop (length S / 2) S) < length S
     ∧ length (take (length S / 2) S) + length (drop (length S / 2) S)
       = length S).
Proof.
  split; [eexists; apply bubble_sort_fun|].
  split; [destruct (bubble_sort_with_steps_fun S d) as (? & ? & ?); eauto|].
  split; [destruct (merge_sort_perm S d) as (? & ? & _); eauto|].
  split.
  - intros depth.
    destruct (merge_sort_with_steps_cost S d depth) as (? & ? & ? & ? & _).
    eauto.
  - intros Hn. rewrite length_take, length_drop.
    pose proof (Nat.div_mod_eq (length S) 2).
    pose proof (Nat.mod_upper_bound (length S) 2). lia.
Qed.

Lemma sorts_terminate_witness :
  length (take (length [5; 2; 8; 1; 9]%Z / 2) [5; 2; 8; 1; 9]%Z) < 5
  ∧ length (drop (length [5; 2; 8; 1; 9]%Z / 2) [5; 2; 8; 1; 9]%Z) < 5
  ∧ length (take (length [5; 2; 8; 1; 9]%Z / 2) [5; 2; 8; 1; 9]%Z)
    + length (drop (length [5; 2; 8; 1; 9]%Z / 2) [5; 2; 8; 1; 9]%Z) = 5.
Proof.
  apply (sorts_terminate [5; 2; 8; 1; 9]%Z false). simpl. lia.
Defined.

(** C10. For all lists [left] and [right], sorted or not, and either
    direction, [merge left right reverse] returns a list of length
    [len(left) + len(right)] that is a permutation of [left ++ right]. *)
Theorem merge_places_every_element {A : Type} `{Cmp A}
    (lft rgt : list A) (reverse : bool) :
  ∃ R, merge lft rgt reverse = Some R
       ∧ length R = length lft + length rgt
       ∧ R ≡ₚ lft ++ rgt.
Proof.
  exists (merge_lists reverse lft rgt). split; [apply merge_fun|].
  split; [apply merge_lists_length|apply merge_lists_perm].
Qed.

(** * Further properties of the code *)

(** ** Lists that are already in order, merging, and the two directions *)

Section OrderedInputs.
Context {A : Type} `{TotalCmp A}.
Implicit Types (x y z : A) (d : bool) (l r S R : list A).

Lemma ordered_tail d x l : ordered d (x :: l) → ordered d l.
Proof. intros Ho i a b Ha Hb. by apply (Ho (S i)). Qed.

Lemma ordered_sorted d l : ordered d l → StronglySorted (goes_before d) l.
Proof.
  intros Ho. apply Sorted_StronglySorted; [intros ? ? ?; apply precedes_trans|].
  induction l as [|x l IH]; [constructor|].
  constructor; [by apply IH, (ordered_tail d x)|].
  destruct l as [|y l]; constructor. by apply (Ho 0).
Qed.

Lemma passes_fun_ordered_input d S :
  ordered d S → passes_fun d (length S) (seq 0 (length S)) S = S.
Proof.
  intros Ho. destruct S as [|x l]; [done|]. cbn [length seq passes_fun].
  pose proof (carry_ordered d (S (length l) - 0 - 1) x l Ho) as Hsw.
  destruct (carry_clean d (S (length l) - 0 - 1) x l Hsw) as [Hc _].
  cbn zeta. by rewrite Hsw, Hc.
Qed.

Lemma ordered_input_kept d S :
  ordered d S → bubble_sort S d = Some S ∧ merge_sort S d = Some S.
Proof.
  intros Ho. split.
  - rewrite bubble_sort_fun. f_equal. by apply passes_fun_ordered_input.
  - destruct (merge_sort_sorted_peers S d) as (R & HR & Hs & Hp).
    rewrite HR. f_equal.
    apply (sorted_peers_unique d); [done|by apply ordered_sorted|done].
Qed.
End OrderedInputs.

(** X1. A list that is already in order for the requested direction is
    returned as it is by [bubble_sort] and by [merge_sort]. *)
Theorem sorted_input_is_returned {A : Type} `{TotalCmp A}
    (S : list A) (d : bool) :
  (∀ i x y, S !! i = Some x → S !! (i + 1) = Some y →
            (if d then py_ge x y else py_le x y) = true) →
  bubble_sort S d = Some S ∧ merge_sort S d = Some S.
Proof. apply ordered_input_kept. Qed.

Lemma sorted_input_is_returned_witness :
  bubble_sort [9; 8; 8; 5]%Z true = Some [9; 8; 8; 5]%Z
  ∧ merge_sort [9; 8; 8; 5]%Z true = Some [9; 8; 8; 5]%Z.
Proof.
  apply (sorted_input_is_returned (H0 := Z_total) [9; 8; 8; 5]%Z true).
  intros i x y Hx Hy.
  do 4 (destruct i as [|i];
        [cbn in Hx, Hy;
         first [discriminate Hy
               |injection Hx as <-; injection Hy as <-; reflexivity]|]).
  cbn in Hx. discriminate Hx.
Defined.

(** X2. Idempotence: sorting the output of a sort again, with either
    engine and in the same direction, gives the same list. *)
Theorem sorting_twice_changes_nothing {A : Type} `{TotalCmp A}
    (S : list A) (d : bool) :
  ∃ R, bubble_sort S d = Some R ∧ merge_sort S d = Some R
       ∧ bubble_sort R d = Some R ∧ merge_sort R d = Some R.
Proof.
  destruct (merge_sort_sorted_peers S d) as (R & HR & Hs & Hp).
  assert (bubble_sort S d = Some R) as HB.
  { rewrite bubble_sort_fun. f_equal.
    apply (sorted_peers_unique d); [|done|].
    - apply passes_fun_sorted; try done.
      + rewrite Nat.sub_0_r, drop_all. constructor.
      + rewrite Nat.sub_0_r, drop_all. intros a b _ Hb.
        by apply elem_of_nil in Hb.
    - intros z. by rewrite passes_fun_peers, Hp. }
  exists R. split; [done|]. split; [done|].
  apply ordered_input_kept. by apply sorted_ordered.
Qed.

Lemma sorting_twice_changes_nothing_witness :
  ∃ R, bubble_sort [5; 2; 8; 1; 9]%Z false = Some R
       ∧ merge_sort [5; 2; 8; 1; 9]%Z false = Some R
       ∧ bubble_sort R false = Some R ∧ merge_sort R false = Some R.
Proof.
  exact (sorting_twice_changes_nothing (H0 := Z_total)
           [5; 2; 8; 1; 9]%Z false).
Defined.

(** X3. [merge] does what its docstring says: for two lists that are in
    order for the direction, the result is in order, and among elements
    that compare equal those of [left] come first, each side keeping its
    own order. *)
Theorem merge_of_sorted_is_sorted {A : Type} `{TotalCmp A}
    (lft rgt : list A) (reverse : bool) :
  ordered reverse lft → ordered reverse rgt →
  ∃ R, merge lft rgt reverse = Some R
       ∧ ordered reverse R
       ∧ ∀ z, peers z R = peers z lft ++ peers z rgt.
Proof.
  intros Hl Hr. exists (merge_lists reverse lft rgt).
  split; [apply merge_fun|]. split.
  - apply sorted_ordered, merge_lists_sorted; by apply ordered_sorted.
  - intros z. apply merge_lists_peers. by apply ordered_sorted.
Qed.

Lemma merge_of_sorted_is_sorted_witness :
  ∃ R, merge [1; 4; 4]%Z [2; 4]%Z false = Some R
       ∧ ordered false R
       ∧ ∀ z, peers z R = peers z [1; 4; 4]%Z ++ peers z [2; 4]%Z.
Proof.
  apply (merge_of_sorted_is_sorted (H0 := Z_total)
           [1; 4; 4]%Z [2; 4]%Z false).
  - intros i x y Hx Hy.
    do 3 (destruct i as [|i];
          [cbn in Hx, Hy;
           first [discriminate Hy
                 |injection Hx as <-; injection Hy as <-; reflexivity]|]).
    cbn in Hx. discriminate Hx.
  - intros i x y Hx Hy.
    do 2 (destruct i as [|i];
          [cbn in Hx, Hy;
           first [discriminate Hy
                 |injection Hx as <-; injection Hy as <-; reflexivity]|]).
    cbn in Hx. discriminate Hx.
Defined.

(** X4. Merging with an empty list returns the other list, element for
    element, whatever the direction and whether it is sorted or not. *)
Theorem merge_with_empty {A : Type} `{Cmp A} (l : list A) (reverse : bool) :
  merge l [] reverse = Some l ∧ merge [] l reverse = Some l.
Proof.
  rewrite !merge_fun. by rewrite merge_lists_nil_l, merge_lists_nil_r.
Qed.

(** ** Descending is ascending read backwards, when equal means same *)

Section Reversal.
Context {A : Type} `{TotalCmp A}.
Implicit Types (x y z : A) (l R S : list A).

Lemma precedes_flip x y : precedes true x y = precedes false y x.
Proof. unfold precedes. apply py_ge_le. Qed.

Lemma sorted_reverse l :
  StronglySorted (goes_before false) l →
  StronglySorted (goes_before true) (reverse l).
Proof.
  induction 1 as [|a l Hl IH Ha]; [constructor|].
  rewrite reverse_cons. apply sorted_app; [done|by repeat constructor|].
  intros b c Hb Hc. apply list_elem_of_singleton in Hc as ->.
  unfold goes_before. rewrite precedes_flip.
  rewrite Forall_forall in Ha. apply Ha. by apply elem_of_reverse.
Qed.

Lemma all_same_reverse z l : Forall (λ a, a = z) l → reverse l = l.
Proof.
  intros Hl.
  assert (l = replicate (length l) z) as ->.
  { symmetry. apply replicate_as_Forall. split; [done|].
    eapply Forall_impl; [exact Hl|]. by intros a ->. }
  apply reverse_replicate.
Qed.

Lemma reversed_sort (S R : list A) :
  (∀ x y, py_le x y = true → py_le y x = true → x = y) →
  StronglySorted (goes_before false) R →
  (∀ z, peers z R = peers z S) →
  bubble_sort S true = Some (reverse R) ∧ merge_sort S true = Some (reverse R).
Proof.
  intros Hanti Hs Hp.
  assert (∀ z, peers z (reverse R) = peers z S) as Hrev.
  { intros z. unfold peers. rewrite filter_reverse.
    fold (peers z R). rewrite Hp. apply (all_same_reverse z).
    apply Forall_forall. intros a Ha.
    apply list_elem_of_filter in Ha as [Ha _].
    apply andb_true_iff in Ha as [? ?]. symmetry. by apply Hanti. }
  pose proof (sorted_reverse R Hs) as Hsr.
  split.
  - rewrite bubble_sort_fun. f_equal.
    apply (sorted_peers_unique true); [|done|].
    + apply passes_fun_sorted; try done.
      * rewrite Nat.sub_0_r, drop_all. constructor.
      * rewrite Nat.sub_0_r, drop_all. intros a b _ Hb.
        by apply elem_of_nil in Hb.
    + intros z. by rewrite passes_fun_peers, Hrev.
  - destruct (merge_sort_sorted_peers S true) as (Rm & HR & Hsm & Hpm).
    rewrite HR. f_equal.
    apply (sorted_peers_unique true); [done..|].
    intros z. by rewrite Hpm, Hrev.
Qed.
End Reversal.

(** X5. On a totally ordered element type in which two elements that
    compare equal are the same value (as for integers), sorting with
    [reverse = True] returns the list that [reverse = False] returns,
    read backwards; this holds for both engines. *)
Theorem descending_is_ascending_reversed {A : Type} `{TotalCmp A}
    (S : list A) :
  (∀ x y, py_le x y = true → py_le y x = true → x = y) →
  ∃ R, bubble_sort S false = Some R ∧ merge_sort S false = Some R
       ∧ bubble_sort S true = Some (reverse R)
       ∧ merge_sort S true = Some (reverse R).
Proof.
  intros Hanti.
  destruct (merge_sort_sorted_peers S false) as (R & HR & Hs & Hp).
  exists R. split; [|split; [done|by apply reversed_sort]].
  rewrite bubble_sort_fun. f_equal.
  apply (sorted_peers_unique false); [|done|].
  - apply passes_fun_sorted; try done.
    + rewrite Nat.sub_0_r, drop_all. constructor.
    + rewrite Nat.sub_0_r, drop_all. intros a b _ Hb.
      by apply elem_of_nil in Hb.
  - intros z. by rewrite passes_fun_peers, Hp.
Qed.

Lemma descending_is_ascending_reversed_witness :
  ∃ R, bubble_sort [5; 2; 8; 2; 9]%Z false = Some R
       ∧ merge_sort [5; 2; 8; 2; 9]%Z false = Some R
       ∧ bubble_sort [5; 2; 8; 2; 9]%Z true = Some (reverse R)
       ∧ merge_sort [5; 2; 8; 2; 9]%Z true = Some (reverse R).
Proof.
  apply (descending_is_ascending_reversed (H0 := Z_total) [5; 2; 8; 2; 9]%Z).
  intros x y Hxy Hyx. cbn in Hxy, Hyx. lia.
Defined.

(** ** How many comparisons bubble_sort_with_steps counts *)

Section BubbleCost.
Context {A : Type} `{Cmp A}.
Implicit Types (x y : A) (d : bool) (l arr R : list A) (out : list (line A)).

Lemma traced_passes_steps d n : ∀ cnt i arr steps out R steps' out',
  i + cnt = n → length arr = n →
  traced_passes d n (seq i cnt) (arr, steps, out) = Some (R, steps', out') →
  steps ≤ steps'
  ∧ 2 * steps' ≤ 2 * steps + cnt * (cnt - 1)
  ∧ (1 ≤ cnt → steps + (cnt - 1) ≤ steps').
Proof.
  induction cnt as [|c IH]; intros i arr steps out R steps' out' Hi Hn Hrun.
  - cbn in Hrun. injection Hrun as <- <- <-. lia.
  - cbn [seq traced_passes] in Hrun. unfold range in Hrun.
    rewrite Nat.sub_0_r in Hrun.
    destruct arr as [|x l]; [simpl in Hn; lia|]. simpl in Hn.
    destruct (traced_inner_carry d (n - i - 1) [] x l false steps
                (out ++ [PassHeader (i + 1)])) as (o1 & Hin & _); [lia|].
    cbn [length app] in Hin. rewrite Hin in Hrun.
    cbn [mbind option_bind orb] in Hrun.
    replace (n - i - 1) with c in * by lia.
    destruct (carry d c x l).2; cbn [negb] in Hrun.
    + apply (IH (S i)) in Hrun; [|lia|by rewrite carry_length; lia].
      destruct Hrun as (H1 & H2 & H3). split; [lia|]. split; [|lia].
      replace (S c - 1) with c by lia. destruct c as [|c]; [lia|].
      replace (S c - 1) with c in H2 by lia. nia.
    + injection Hrun as <- <- <-. split; [lia|]. split; [nia|lia].
Qed.

(** A carried element that has to come after everything it meets is
    exchanged at every step. *)
Lemma carry_all_out_of_order d m : ∀ x l,
  m ≤ length l →
  Forall (λ y, out_of_order d x y = true) (take m l) →
  carry d m x l = (take m l ++ x :: drop m l, bool_decide (0 < m)).
Proof.
  induction m as [|m IH]; intros x l Hm Hall.
  - by rewrite take_0, drop_0.
  - destruct l as [|y l]; [simpl in Hm; lia|]. simpl in Hm.
    cbn [take] in Hall. apply Forall_cons in Hall as [Hxy Hall].
    cbn [carry take drop app]. rewrite Hxy, IH by (done || lia). cbn [fst].
    by rewrite bool_decide_true by lia.
Qed.

Lemma traced_passes_worst d n : ∀ cnt i arr steps out,
  i + cnt = n → length arr = n →
  StronglySorted (λ x y, out_of_order d x y = true) (take cnt arr) →
  ∃ steps' out',
    traced_passes d n (seq i cnt) (arr, steps, out)
    = Some (reverse (take cnt arr) ++ drop cnt arr, steps', out')
    ∧ 2 * steps' = 2 * steps + cnt * (cnt - 1).
Proof.
  induction cnt as [|c IH]; intros i arr steps out Hi Hn Hs.
  - exists steps, out. cbn. rewrite drop_0. split; [done|lia].
  - cbn [seq traced_passes]. unfold range. rewrite Nat.sub_0_r.
    destruct arr as [|x l]; [simpl in Hn; lia|]. simpl in Hn.
    cbn [take drop] in Hs |- *.
    apply StronglySorted_inv in Hs as [Hs Hx].
    destruct (traced_inner_carry d (n - i - 1) [] x l false steps
                (out ++ [PassHeader (i + 1)])) as (o1 & Hin & _); [lia|].
    cbn [length app] in Hin. rewrite Hin.
    cbn [mbind option_bind orb].
    replace (n - i - 1) with c in * by lia.
    rewrite carry_all_out_of_order by (done || lia). cbn [fst snd].
    destruct c as [|c].
    + rewrite bool_decide_false by lia. cbn [negb].
      do 2 eexists. split; [by rewrite take_0, drop_0|lia].
    + rewrite bool_decide_true by lia. cbn [negb].
      assert (length (take (S c) l) = S c) as Hlen
        by (rewrite length_take; lia).
      destruct (IH (S i) (take (S c) l ++ x :: drop (S c) l) (steps + S c)
                   (o1 ++ [Blank])) as (s' & o' & Hrun & Hcost).
      * lia.
      * rewrite length_app. cbn [length]. rewrite Hlen, length_drop. lia.
      * by rewrite take_app_length'.
      * rewrite take_app_length', drop_app_length' in Hrun by done.
        exists s', o'. split.
        -- rewrite Hrun. f_equal. f_equal.
           by rewrite reverse_cons, <- (assoc_L (++)).
        -- replace (S (S c) - 1) with (S c) by lia.
           replace (S c - 1) with c in Hcost by lia. nia.
Qed.

Lemma pairwise_sorted (Rel : relation A) l :
  (∀ i j x y, i < j → l !! i = Some x → l !! j = Some y → Rel x y) →
  StronglySorted Rel l.
Proof.
  induction l as [|a l IH]; intros Hp; [constructor|].
  constructor.
  - apply IH. intros i j x y Hij Hx Hy. apply (Hp (S i) (S j)); [lia|done..].
  - apply Forall_forall. intros b Hb.
    apply list_elem_of_lookup in Hb as [j Hj].
    by apply (Hp 0 (S j)); [lia|..].
Qed.
End BubbleCost.

(** X6. Cost of the exchange sort: on a list of length [n],
    [bubble_sort_with_steps] counts at most [n * (n - 1) / 2] steps and,
    for [n >= 1], at least [n - 1]. *)
Theorem bubble_steps_bounds {A : Type} `{Cmp A} (S : list A) (d : bool) :
  ∃ R steps out,
    bubble_sort_with_steps S d = Some ((R, steps), out)
    ∧ 2 * steps ≤ length S * (length S - 1)
    ∧ length S - 1 ≤ steps.
Proof.
  destruct (bubble_sort_with_steps_fun S d) as (steps & out & Hrun).
  do 3 eexists. split; [exact Hrun|].
  unfold bubble_sort_with_steps, range in Hrun. rewrite Nat.sub_0_r in Hrun.
  destruct (traced_passes d (length S) (seq 0 (length S))
              (S, 0, [SourceArray S; Rule])) as [[[R k] o]|] eqn:Hp; [|done].
  cbn in Hrun. injection Hrun as _ <- _.
  apply traced_passes_steps in Hp as (_ & Hup & Hlow); [|done..].
  split; [lia|]. destruct (length S); lia.
Qed.

(** X7. The worst case is reached: when every element of the input has
    to come after every later one ([>] for ascending, [<] for
    descending), [bubble_sort_with_steps] counts exactly
    [n * (n - 1) / 2] steps and returns the input reversed. *)
Theorem bubble_steps_worst_case {A : Type} `{Cmp A} (S : list A) (d : bool) :
  (∀ i j x y, i < j → S !! i = Some x → S !! j = Some y →
              (if d then py_lt x y else py_gt x y) = true) →
  ∃ steps out,
    bubble_sort_with_steps S d = Some ((reverse S, steps), out)
    ∧ 2 * steps = length S * (length S - 1).
Proof.
  intros Hp. unfold bubble_sort_with_steps, range. rewrite Nat.sub_0_r.
  destruct (traced_passes_worst d (length S) (length S) 0 S 0
              [SourceArray S; Rule]) as (steps & out & Hrun & Hcost);
    [done..| |].
  { rewrite firstn_all. by apply pairwise_sorted. }
  rewrite firstn_all, drop_all, app_nil_r in Hrun. rewrite Hrun.
  cbn [mbind option_bind]. do 2 eexists. split; [done|lia].
Qed.

Lemma bubble_steps_worst_case_witness :
  ∃ steps out,
    bubble_sort_with_steps [4; 3; 2; 1]%Z false
    = Some ((reverse [4; 3; 2; 1]%Z, steps), out)
    ∧ 2 * steps = length [4; 3; 2; 1]%Z * (length [4; 3; 2; 1]%Z - 1).
Proof.
  apply (bubble_steps_worst_case [4; 3; 2; 1]%Z false).
  intros i j x y Hij Hx Hy.
  do 4 (destruct i as [|i]; [
    do 4 (destruct j as [|j]; [
      cbn in Hx, Hy;
      first [lia|injection Hx as <-; injection Hy as <-; reflexivity]|]);
    cbn in Hy; discriminate Hy|]).
  cbn in Hx. discriminate Hx.
Defined.

(** ** The exact cost and the shape of the recursion of
    merge_sort_with_steps *)

Section MergeTrace.
Context {A : Type} `{Cmp A}.
Implicit Types (arr R : list A) (d : bool) (out : list (line A)).

Lemma halves n :
  1 < n → 1 ≤ n / 2 ∧ n / 2 ≤ n - n / 2 ∧ n - n / 2 ≤ n / 2 + 1
          ∧ n / 2 + (n - n / 2) = n.
Proof.
  intros Hn. pose proof (Nat.div_mod_eq n 2).
  pose proof (Nat.mod_upper_bound n 2). lia.
Qed.

Lemma pow2_pos k : 1 ≤ 2 ^ k.
Proof. pose proof (Nat.pow_nonzero 2 k). lia. Qed.

(** For [n >= 1] and any [k] with [2 ^ k / 2 <= n <= 2 ^ k], the count
    is [n * (k + 1) - 2 ^ k]. *)
Lemma merge_sort_with_steps_exact arr d depth :
  ∃ R ops out,
    merge_sort_with_steps arr d depth = Some ((R, ops), out)
    ∧ length R = length arr
    ∧ (length arr = 0 → ops = 0)
    ∧ (∀ k, 1 ≤ length arr → 2 ^ k ≤ 2 * length arr → length arr ≤ 2 ^ k →
            ops + 2 ^ k = length arr * (k + 1)).
Proof.
  apply (merge_sort_with_steps_rule d
           (λ arr _ R ops _,
              length R = length arr
              ∧ (length arr = 0 → ops = 0)
              ∧ (∀ k, 1 ≤ length arr → 2 ^ k ≤ 2 * length arr →
                      length arr ≤ 2 ^ k →
                      ops + 2 ^ k = length arr * (k + 1)))).
  - intros a _ Ha. split; [done|]. split; [done|].
    intros k Hn Hlo Hhi. replace (length a) with 1 in * by lia.
    destruct k as [|[|k]]; [done..|].
    rewrite !Nat.pow_succ_r' in Hlo. pose proof (pow2_pos k). lia.
  - intros a _ ls rs ol or _ _ Ha (Hll & _ & Hel) (Hlr & _ & Her).
    rewrite length_take in Hll, Hel. rewrite length_drop in Hlr, Her.
    set (n := length a) in *.
    destruct (halves n Ha) as (H1 & H2 & H3 & H4).
    rewrite (Nat.min_l (n / 2) n) in Hll, Hel by lia.
    rewrite merge_lists_length, Hll, Hlr.
    split; [lia|]. split; [lia|].
    intros [|k] Hn Hlo Hhi; [simpl in Hhi; lia|].
    rewrite Nat.pow_succ_r' in Hlo, Hhi |- *.
    assert (2 ^ k ≤ 2 * (n / 2)) as Hlow.
    { destruct k as [|k]; [rewrite Nat.pow_0_r; lia|].
      rewrite Nat.pow_succ_r' in Hlo |- *.
      pose proof (Nat.div_mod_eq n 2).
      pose proof (Nat.mod_upper_bound n 2). lia. }
    specialize (Hel k). specialize (Her k).
    assert (n / 2 * (k + 1) + (n - n / 2) * (k + 1) = n * (k + 1)) as Hsum
      by (rewrite <- Nat.mul_add_distr_r; f_equal; lia).
    replace (S k + 1) with (S (k + 1)) by lia. rewrite Nat.mul_succ_r. lia.
Qed.

Lemma log2_up_window n :
  1 ≤ n → 2 ^ Nat.log2_up n ≤ 2 * n ∧ n ≤ 2 ^ Nat.log2_up n.
Proof.
  intros Hn. destruct (decide (n = 1)) as [->|]; [by cbn; lia|].
  destruct (Nat.log2_up_spec n) as [Hlo Hhi]; [lia|]. split; [|done].
  destruct (Nat.log2_up n) as [|k] eqn:Hk; [simpl; lia|].
  cbn [Nat.pred] in Hlo. rewrite Nat.pow_succ_r'. lia.
Qed.

Lemma count_lines_app (f : line A → bool) out1 out2 :
  count_lines f (out1 ++ out2) = count_lines f out1 + count_lines f out2.
Proof. unfold count_lines. by rewrite List.filter_app, length_app. Qed.

(** A merge is printed for every element but one, a base case for every
    element. *)
Lemma merge_sort_with_steps_counts arr d depth :
  ∃ R ops out,
    merge_sort_with_steps arr d depth = Some ((R, ops), out)
    ∧ count_lines is_merging out = length arr - 1
    ∧ count_lines is_base_case out = 1 `max` length arr.
Proof.
  apply (merge_sort_with_steps_rule d
           (λ arr _ _ _ out,
              count_lines is_merging out = length arr - 1
              ∧ count_lines is_base_case out = 1 `max` length arr)).
  - intros a dp Ha. cbn. lia.
  - intros a dp ls rs _ _ out_l out_r Ha [Hml Hbl] [Hmr Hbr].
    rewrite length_take in Hml, Hbl. rewrite length_drop in Hmr, Hbr.
    destruct (halves (length a) Ha) as (H1 & H2 & H3 & H4).
    rewrite !count_lines_app, Hml, Hmr, Hbl, Hbr.
    set (q := length a / 2) in *. clearbody q. cbn. lia.
Qed.

(** Every line is printed at a depth between the depth of the call and
    that depth plus [k], if [len(arr) <= 2 ^ k]; and for [k] with
    [2 ^ k < 2 * len(arr)] some call runs at that depth plus [k]. *)
Lemma merge_sort_with_steps_depths arr d depth :
  ∃ R ops out,
    merge_sort_with_steps arr d depth = Some ((R, ops), out)
    ∧ (∀ k, length arr ≤ 2 ^ k →
            Forall (λ l, ∃ dl, line_depth l = Some dl
                               ∧ depth ≤ dl ≤ depth + k) out)
    ∧ (∀ k, 2 ^ k < 2 * length arr →
            ∃ a, Sorting (depth + k) a ∈ out).
Proof.
  apply (merge_sort_with_steps_rule d
           (λ arr depth _ _ out,
              (∀ k, length arr ≤ 2 ^ k →
                    Forall (λ l, ∃ dl, line_depth l = Some dl
                                       ∧ depth ≤ dl ≤ depth + k) out)
              ∧ (∀ k, 2 ^ k < 2 * length arr →
                      ∃ a, Sorting (depth + k) a ∈ out))).
  - intros a dp Ha. split.
    + intros k _. repeat constructor; eexists; (split; [done|lia]).
    + intros k Hk. destruct k as [|k].
      * exists a. rewrite Nat.add_0_r. by left.
      * rewrite Nat.pow_succ_r' in Hk. pose proof (pow2_pos k). lia.
  - intros a dp ls rs _ _ out_l out_r Ha [Hbl Hal] [Hbr Har].
    rewrite length_take in Hbl. rewrite length_drop in Hbr, Har.
    destruct (halves (length a) Ha) as (H1 & H2 & H3 & H4). split.
    + intros [|k] Hk; [simpl in Hk; lia|]. rewrite Nat.pow_succ_r' in Hk.
      cbn [app].
      constructor; [eexists; split; [done|lia]|].
      constructor; [eexists; split; [done|lia]|].
      apply Forall_app. split.
      { eapply Forall_impl; [apply (Hbl k); lia|].
        intros l (dl & Hd & ?). exists dl. split; [done|lia]. }
      apply Forall_app. split.
      { eapply Forall_impl; [apply (Hbr k); lia|].
        intros l (dl & Hd & ?). exists dl. split; [done|lia]. }
      repeat constructor; eexists; (split; [done|lia]).
    + intros [|k] Hk.
      * exists a. rewrite Nat.add_0_r. by left.
      * rewrite Nat.pow_succ_r' in Hk.
        destruct (Har k) as [b Hb]; [lia|]. exists b.
        replace (dp + S k) with (dp + 1 + k) by lia.
        apply elem_of_app. right. apply elem_of_app. right.
        apply elem_of_app. by left.
Qed.
End MergeTrace.

(** X8. Exact cost of the merge sort: for an input of length [n >= 1]
    the operation count returned by [merge_sort_with_steps] is
    [n * (ceil(log2 n) + 1) - 2 ^ ceil(log2 n)], and it is [0] for the
    empty list. *)
Theorem merge_steps_exact {A : Type} `{Cmp A}
    (S : list A) (d : bool) (depth : nat) :
  ∃ R ops out,
    merge_sort_with_steps S d depth = Some ((R, ops), out)
    ∧ (length S = 0 → ops = 0)
    ∧ (1 ≤ length S →
       ops + 2 ^ Nat.log2_up (length S)
       = length S * (Nat.log2_up (length S) + 1)).
Proof.
  destruct (merge_sort_with_steps_exact S d depth)
    as (R & ops & out & Hrun & _ & H0' & Hk).
  exists R, ops, out. split; [done|]. split; [done|].
  intros Hn. destruct (log2_up_window (length S) Hn). by apply Hk.
Qed.

Lemma merge_steps_exact_witness :
  ∃ R ops out,
    merge_sort_with_steps [5; 2; 8; 1; 9]%Z false 0 = Some ((R, ops), out)
    ∧ ops + 2 ^ Nat.log2_up 5 = 5 * (Nat.log2_up 5 + 1).
Proof.
  destruct (merge_steps_exact [5; 2; 8; 1; 9]%Z false 0)
    as (R & ops & out & Hrun & _ & Hexact).
  exists R, ops, out. split; [exact Hrun|].
  apply Hexact. cbn. lia.
Defined.

(** X9. The merge sort has no early exit: the operation count returned
    by [merge_sort_with_steps] depends on the length of the input only,
    not on its elements, the direction or the depth argument. *)
Theorem merge_steps_depend_on_length_only {A : Type} `{Cmp A}
    (S1 S2 : list A) (d1 d2 : bool) (depth1 depth2 : nat) :
  length S1 = length S2 →
  ∃ R1 R2 ops out1 out2,
    merge_sort_with_steps S1 d1 depth1 = Some ((R1, ops), out1)
    ∧ merge_sort_with_steps S2 d2 depth2 = Some ((R2, ops), out2).
Proof.
  intros Hlen.
  destruct (merge_sort_with_steps_exact S1 d1 depth1)
    as (R1 & ops1 & out1 & Hrun1 & _ & Hz1 & Hk1).
  destruct (merge_sort_with_steps_exact S2 d2 depth2)
    as (R2 & ops2 & out2 & Hrun2 & _ & Hz2 & Hk2).
  exists R1, R2, ops1, out1, out2. split; [done|].
  rewrite Hrun2. do 3 f_equal.
  destruct (decide (length S1 = 0)) as [Hz|Hnz].
  - rewrite Hz1, Hz2; [done|lia|done].
  - destruct (log2_up_window (length S1)) as [Hlo Hhi]; [lia|].
    specialize (Hk1 (Nat.log2_up (length S1))).
    specialize (Hk2 (Nat.log2_up (length S1))).
    rewrite <- Hlen in Hk2. lia.
Qed.

Lemma merge_steps_depend_on_length_only_witness :
  ∃ R1 R2 ops out1 out2,
    merge_sort_with_steps [1; 2; 3]%Z false 0 = Some ((R1, ops), out1)
    ∧ merge_sort_with_steps [9; 7; 8]%Z true 4 = Some ((R2, ops), out2).
Proof.
  apply (merge_steps_depend_on_length_only
           [1; 2; 3]%Z [9; 7; 8]%Z false true 0 4).
  reflexivity.
Defined.

(** X10. Shape of the recursion: on an input of length [n >= 1],
    [merge_sort_with_steps] performs exactly [n - 1] merges (it prints
    that many merge lines) and reaches exactly [n] base cases; on the
    empty list it performs no merge and reaches one base case. *)
Theorem merge_trace_counts {A : Type} `{Cmp A}
    (S : list A) (d : bool) (depth : nat) :
  ∃ R ops out,
    merge_sort_with_steps S d depth = Some ((R, ops), out)
    ∧ (length S = 0 →
       count_lines is_merging out = 0 ∧ count_lines is_base_case out = 1)
    ∧ (1 ≤ length S →
       count_lines is_merging out + 1 = length S
       ∧ count_lines is_base_case out = length S).
Proof.
  destruct (merge_sort_with_steps_counts S d depth)
    as (R & ops & out & Hrun & Hm & Hb).
  exists R, ops, out. split; [done|]. split; intros Hn; lia.
Qed.

Lemma merge_trace_counts_witness :
  ∃ R ops out,
    merge_sort_with_steps [5; 2; 8; 1; 9]%Z true 0 = Some ((R, ops), out)
    ∧ (length [5; 2; 8; 1; 9]%Z = 0 →
       count_lines is_merging out = 0 ∧ count_lines is_base_case out = 1)
    ∧ (1 ≤ length [5; 2; 8; 1; 9]%Z →
       count_lines is_merging out + 1 = length [5; 2; 8; 1; 9]%Z
       ∧ count_lines is_base_case out = length [5; 2; 8; 1; 9]%Z).
Proof. exact (merge_trace_counts [5; 2; 8; 1; 9]%Z true 0). Defined.

(** X11. Depth of the recursion: every line [merge_sort_with_steps]
    prints for an input of length [n] carries a depth between the depth
    of the call and that depth plus [ceil(log2 n)], and for [n >= 1] a
    recursive call is made at exactly that largest depth. *)
Theorem merge_trace_depth {A : Type} `{Cmp A}
    (S : list A) (d : bool) (depth : nat) :
  ∃ R ops out,
    merge_sort_with_steps S d depth = Some ((R, ops), out)
    ∧ Forall (λ l, ∃ dl, line_depth l = Some dl
                         ∧ depth ≤ dl ≤ depth + Nat.log2_up (length S)) out
    ∧ (1 ≤ length S →
       ∃ a, Sorting (depth + Nat.log2_up (length S)) a ∈ out).
Proof.
  destruct (merge_sort_with_steps_depths S d depth)
    as (R & ops & out & Hrun & Hbound & Hreach).
  exists R, ops, out. split; [done|]. split.
  - apply Hbound. destruct (decide (length S = 0)) as [->|]; [simpl; lia|].
    apply log2_up_window. lia.
  - intros Hn. apply Hreach.
    destruct (decide (length S = 1)) as [->|]; [simpl; lia|].
    destruct (Nat.log2_up_spec (length S)) as [Hlo _]; [lia|].
    destruct (Nat.log2_up (length S)) as [|k] eqn:Hk; [simpl; lia|].
    cbn [Nat.pred] in Hlo. rewrite Nat.pow_succ_r'. lia.
Qed.

Lemma merge_trace_depth_witness :
  ∃ R ops out,
    merge_sort_with_steps [5; 2; 8; 1; 9]%Z false 0 = Some ((R, ops), out)
    ∧ ∃ a, Sorting (0 + Nat.log2_up 5) a ∈ out.
Proof.
  destruct (merge_trace_depth [5; 2; 8; 1; 9]%Z false 0)
    as (R & ops & out & Hrun & _ & Hreach).
  exists R, ops, out. split; [exact Hrun|]. apply Hreach. cbn. lia.
Defined.

(** ** What merge does to the store *)

(** X12. [merge] never changes a list it is given: in the store-level
    model, for any two references [left] and [right] (also when they are
    one and the same object) and every large enough bound on its loops,
    [merge] returns a reference to an object that did not exist before
    and holds the merged list, leaves every existing object as it was
    and prints nothing. *)
Theorem merge_leaves_inputs_alone {A : Type} `{Cmp A}
    (s : Store.state A) (lft rgt : Store.ref) (L R : list A)
    (reverse : bool) :
  Store.objects s !! lft = Some L →
  Store.objects s !! rgt = Some R →
  ∃ fuel0, ∀ fuel, fuel0 ≤ fuel → ∃ r s' M,
    Store.merge fuel lft rgt reverse s = Store.Ok (r, s')
    ∧ merge L R reverse = Some M
    ∧ Store.objects s' !! r = Some M
    ∧ Store.objects s !! r = None
    ∧ (∀ r0 v, Store.objects s !! r0 = Some v →
               Store.objects s' !! r0 = Some v)
    ∧ Store.stdout s' = Store.stdout s.
Proof.
  destruct s as [h out]. cbn [Store.objects Store.stdout]. intros HL HR.
  exists (S (length L + length R)). intros fuel Hf.
  exists (length h), (Store.State (h ++ [merge_lists reverse L R]) out),
         (merge_lists reverse L R).
  split; [apply (merge_sim h out lft rgt L R); [done..|apply merge_fun|lia]|].
  split; [apply merge_fun|]. cbn [Store.objects Store.stdout].
  split; [apply lookup_last|]. split; [by apply lookup_ge_None|].
  split; [|done]. intros r0 v Hr0. by apply lookup_app_l_Some.
Qed.

Lemma merge_leaves_inputs_alone_witness :
  let s := Store.State [[1; 3; 3]%Z] [] in
  ∃ fuel0, ∀ fuel, fuel0 ≤ fuel → ∃ r s' M,
    Store.merge fuel 0 0 false s = Store.Ok (r, s')
    ∧ merge [1; 3; 3]%Z [1; 3; 3]%Z false = Some M
    ∧ Store.objects s' !! r = Some M
    ∧ Store.objects s !! r = None
    ∧ (∀ r0 v, Store.objects s !! r0 = Some v →
               Store.objects s' !! r0 = Some v)
    ∧ Store.stdout s' = Store.stdout s.
Proof.
  apply (merge_leaves_inputs_alone (Store.State [[1; 3; 3]%Z] []) 0 0
           [1; 3; 3]%Z [1; 3; 3]%Z false); reflexivity.
Defined.

(** ** The passes of bubble_sort_with_steps *)

Section BubblePasses.
Context {A : Type} `{Cmp A}.
Implicit Types (x y : A) (d : bool) (l arr R : list A) (out : list (line A)).

(** The inner loop prints nothing but swap lines. *)
Lemma traced_inner_lines d m : ∀ p x l sw steps out,
  m ≤ length l →
  ∃ swaps,
    for_each (traced_step d) (seq (length p) m) (p ++ x :: l, sw, steps, out)
    = Some (p ++ (carry d m x l).1, sw || (carry d m x l).2, steps + m,
            out ++ swaps)
    ∧ Forall (λ s, is_swap_line s = true) swaps.
Proof.
  induction m as [|m IH]; intros p x l sw steps out Hm.
  - exists []. simpl. by rewrite orb_false_r, Nat.add_0_r, app_nil_r.
  - destruct l as [|y l]; [simpl in Hm; lia|]. simpl in Hm.
    cbn [seq for_each]. rewrite traced_step_spec. cbn [mbind option_bind].
    replace (S (length p)) with (length (p ++ [y]))
      by (rewrite length_app; simpl; lia).
    cbn [carry]. destruct (out_of_order d x y).
    + rewrite (app_cons_snoc p y (x :: l)).
      destruct (IH (p ++ [y]) x l true (steps + 1)
                   (out ++ [SwapLine (steps + 1) x y ((p ++ [y]) ++ x :: l)]))
        as (swaps & -> & Hsw); [lia|].
      exists (SwapLine (steps + 1) x y ((p ++ [y]) ++ x :: l) :: swaps).
      cbn [fst snd]. rewrite orb_true_r, <- !app_cons_snoc.
      split; [|by constructor]. do 3 f_equal. lia.
    + replace (length (p ++ [y])) with (length (p ++ [x]))
        by (rewrite !length_app; simpl; lia).
      rewrite (app_cons_snoc p x (y :: l)).
      destruct (IH (p ++ [x]) y l sw (steps + 1) out) as (swaps & -> & Hsw);
        [lia|].
      exists swaps. cbn [fst snd]. rewrite <- app_cons_snoc.
      split; [|done]. do 3 f_equal. lia.
Qed.

Lemma count_swaps (f : line A → bool) swaps :
  (∀ s, is_swap_line s = true → f s = false) →
  Forall (λ s, is_swap_line s = true) swaps →
  count_lines f swaps = 0.
Proof.
  intros Hf. induction 1 as [|s swaps Hs _ IH]; [done|].
  unfold count_lines in *. cbn. by rewrite (Hf s Hs).
Qed.

(** From pass [i] on, with [cnt >= 1] passes still allowed, the loop
    makes [p] passes, [1 <= p <= cnt], leaves through [break] and counts
    the comparisons of these [p] passes. *)
Lemma traced_passes_shape d n : ∀ cnt i arr steps out,
  i + cnt = n → length arr = n → 1 ≤ cnt →
  ∃ R steps' mid,
    traced_passes d n (seq i cnt) (arr, steps, out)
    = Some (R, steps', out ++ mid)
    ∧ count_lines is_no_swaps mid = 1
    ∧ 1 ≤ count_lines is_pass_header mid ≤ cnt
    ∧ 2 * steps' + count_lines is_pass_header mid
                   * (count_lines is_pass_header mid + 1)
      = 2 * steps + 2 * count_lines is_pass_header mid * cnt.
Proof.
  induction cnt as [|c IH]; intros i arr steps out Hi Hn Hc; [lia|].
  cbn [seq traced_passes]. unfold range. rewrite Nat.sub_0_r.
  destruct arr as [|x l]; [simpl in Hn; lia|]. simpl in Hn.
  destruct (traced_inner_lines d (n - i - 1) [] x l false steps
              (out ++ [PassHeader (i + 1)])) as (swaps & Hin & Hsw); [lia|].
  cbn [length app] in Hin. rewrite Hin. cbn [mbind option_bind orb].
  replace (n - i - 1) with c in * by lia.
  assert (count_lines is_no_swaps swaps = 0) as Hns
    by (apply count_swaps; [by intros []|done]).
  assert (count_lines is_pass_header swaps = 0) as Hph
    by (apply count_swaps; [by intros []|done]).
  destruct (carry d c x l).2 eqn:Hflag; cbn [negb].
  - assert (1 ≤ c) as Hc1 by (destruct c; [done|lia]).
    destruct (IH (S i) (carry d c x l).1 (steps + c)
                 (((out ++ [PassHeader (i + 1)]) ++ swaps) ++ [Blank]))
      as (R & s' & mid & Hrun & Hn1 & Hp1 & Hcost);
      [lia|rewrite carry_length; lia|done|].
    exists R, s', ([PassHeader (i + 1)] ++ swaps ++ [Blank] ++ mid).
    split; [rewrite Hrun; do 2 f_equal; by rewrite <- !(assoc_L (++))|].
    rewrite !count_lines_app, Hns, Hph, Hn1.
    set (q := count_lines is_pass_header mid) in *. clearbody q.
    cbn. split; [done|]. split; [lia|]. nia.
  - exists (carry d c x l).1, (steps + c),
           ([PassHeader (i + 1)] ++ swaps ++ [NoSwaps]).
    split; [by rewrite <- !(assoc_L (++))|].
    rewrite !count_lines_app, Hns, Hph. cbn. split; [done|]. split; lia.
Qed.
End BubblePasses.

(** X13. The passes of the exchange sort: on a non-empty input of
    length [n], [bubble_sort_with_steps] always leaves its outer loop
    through [break] (the line saying that no exchange was made is
    printed exactly once), it makes [p] passes with [1 <= p <= n], and
    the step count is that of [p] shrinking passes,
    [p * n - p * (p + 1) / 2]. *)
Theorem bubble_passes_shape {A : Type} `{Cmp A} (S : list A) (d : bool) :
  S ≠ [] →
  ∃ R steps out,
    bubble_sort_with_steps S d = Some ((R, steps), out)
    ∧ count_lines is_no_swaps out = 1
    ∧ 1 ≤ count_lines is_pass_header out ≤ length S
    ∧ 2 * steps + count_lines is_pass_header out
                  * (count_lines is_pass_header out + 1)
      = 2 * count_lines is_pass_header out * length S.
Proof.
  intros HS. unfold bubble_sort_with_steps, range. rewrite Nat.sub_0_r.
  destruct (traced_passes_shape d (length S) (length S) 0 S 0
              [SourceArray S; Rule])
    as (R & steps & mid & Hrun & Hns & Hp & Hcost); [done..| |].
  { destruct S; [done|simpl; lia]. }
  rewrite Hrun. cbn [mbind option_bind]. do 3 eexists. split; [done|].
  rewrite !count_lines_app.
  set (p := count_lines is_pass_header mid) in *. clearbody p.
  rewrite Hns. cbn. split; [done|]. split; [lia|]. lia.
Qed.

Lemma bubble_passes_shape_witness :
  ∃ R steps out,
    bubble_sort_with_steps [2; 1; 3]%Z false = Some ((R, steps), out)
    ∧ count_lines is_no_swaps out = 1
    ∧ 1 ≤ count_lines is_pass_header out ≤ length [2; 1; 3]%Z
    ∧ 2 * steps + count_lines is_pass_header out
                  * (count_lines is_pass_header out + 1)
      = 2 * count_lines is_pass_header out * length [2; 1; 3]%Z.
Proof. apply (bubble_passes_shape [2; 1; 3]%Z false). discriminate. Defined.

(** ** password_generator.py *)

Section PasswordFacts.
Import PasswordGenerator.
Context {G : Type} (randbelow : nat → G → nat * G).
Implicit Types (g : G) (pw seq : list ascii) (u l d s : bool).

Lemma characters_of_nil u l d s :
  characters_of u l d s = [] ↔ u = false ∧ l = false ∧ d = false ∧ s = false.
Proof.
  destruct u, l, d, s; (split; [by intros ?|by intros (?&?&?&?)]).
Qed.

Lemma choice_in seq g c g' :
  choice randbelow seq g = Ok (c, g') → c ∈ seq.
Proof.
  unfold choice. destruct (decide (seq = [])); [done|].
  destruct (randbelow (length seq) g) as [i g1].
  destruct (seq !! i) as [c'|] eqn:Hi; [|done].
  intros [= <- <-]. by eapply list_elem_of_lookup_2.
Qed.

Lemma choices_in n seq : ∀ g pw g',
  choices randbelow n seq g = Ok (pw, g') →
  length pw = n ∧ Forall (λ c, c ∈ seq) pw.
Proof.
  induction n as [|n IH]; intros g pw g' Hrun; cbn in Hrun.
  - by injection Hrun as <- <-.
  - destruct (choice randbelow seq g) as [[c g1]| |] eqn:Hc; try done.
    destruct (choices randbelow n seq g1) as [[cs g2]| |] eqn:Hcs; try done.
    injection Hrun as <- <-. destruct (IH _ _ _ Hcs) as [Hlen Hall].
    split; [by rewrite <- Hlen|]. constructor; [|done].
    by eapply choice_in.
Qed.

Lemma choices_no_value_error n seq : ∀ g e,
  choices randbelow n seq g ≠ ValueError e.
Proof.
  induction n as [|n IH]; intros g e; cbn; [done|].
  unfold choice at 1. destruct (decide (seq = [])); [done|].
  destruct (randbelow (length seq) g) as [i g1].
  destruct (seq !! i) as [c|]; [|done].
  destruct (choices randbelow n seq g1) as [[cs g2]|e'|] eqn:Hcs; try done.
  by apply IH in Hcs.
Qed.

Lemma choices_ok n seq :
  seq ≠ [] →
  (∀ k g, 0 < k → (randbelow k g).1 < k) →
  ∀ g, ∃ pw g', choices randbelow n seq g = Ok (pw, g').
Proof.
  intros Hseq Hbelow. induction n as [|n IH]; intros g; cbn; [by eauto|].
  unfold choice. rewrite decide_False by done.
  pose proof (Hbelow (length seq) g) as Hi.
  destruct (randbelow (length seq) g) as [i g1]. cbn in Hi.
  destruct (lookup_lt_is_Some_2 seq i) as [c ->].
  { apply Hi. destruct seq; [done|simpl; lia]. }
  destruct (IH g1) as (cs & g2 & ->). by eauto.
Qed.

(** Characters of a type that was not selected are not in the
    character set. *)
Lemma characters_of_types u l d s c :
  c ∈ characters_of u l d s →
  (c ∈ ascii_uppercase → u = true) ∧ (c ∈ ascii_lowercase → l = true)
  ∧ (c ∈ digits → d = true) ∧ (c ∈ special → s = true).
Proof.
  assert (Forall (λ c, (c ∉ ascii_lowercase) ∧ (c ∉ digits) ∧ (c ∉ special))
                 ascii_uppercase) as Hu by (by compute_done).
  assert (Forall (λ c, (c ∉ ascii_uppercase) ∧ (c ∉ digits) ∧ (c ∉ special))
                 ascii_lowercase) as Hl by (by compute_done).
  assert (Forall (λ c, (c ∉ ascii_uppercase) ∧ (c ∉ ascii_lowercase)
                       ∧ (c ∉ special)) digits) as Hd by (by compute_done).
  assert (Forall (λ c, (c ∉ ascii_uppercase) ∧ (c ∉ ascii_lowercase)
                       ∧ (c ∉ digits)) special) as Hs by (by compute_done).
  rewrite Forall_forall in Hu, Hl, Hd, Hs.
  intros Hc.
  assert (c ∈ (if u then ascii_uppercase else [])
              ++ (if l then ascii_lowercase else [])
              ++ (if d then digits else []) ++ (if s then special else []))
    as Hc' by (by destruct u, l, d, s).
  clear Hc. rewrite !elem_of_app in Hc'.
  destruct Hc' as [Hc|[Hc|[Hc|Hc]]].
  - destruct u; [|by apply elem_of_nil in Hc].
    destruct (Hu _ Hc) as (?&?&?). by repeat split.
  - destruct l; [|by apply elem_of_nil in Hc].
    destruct (Hl _ Hc) as (?&?&?). by repeat split.
  - destruct d; [|by apply elem_of_nil in Hc].
    destruct (Hd _ Hc) as (?&?&?). by repeat split.
  - destruct s; [|by apply elem_of_nil in Hc].
    destruct (Hs _ Hc) as (?&?&?). by repeat split.
Qed.
End PasswordFacts.

Section PasswordLoop.
Import PasswordGenerator.
Context {G : Type} (randbelow : nat → G → nat * G).

Lemma generate_password_in len u l d s (g : G) pw g' :
  generate_password randbelow len u l d s g = Ok (pw, g') →
  well_formed len u l d s pw.
Proof.
  unfold generate_password. destruct (decide (len ≤ 0)%Z); [done|].
  cbv zeta. destruct (decide (characters_of u l d s = [])); [done|].
  apply choices_in.
Qed.

Lemma generate_password_returns len u l d s (g : G) :
  (∀ k g, 0 < k → (randbelow k g).1 < k) →
  (0 < len)%Z → u || l || d || s = true →
  ∃ pw g', generate_password randbelow len u l d s g = Ok (pw, g').
Proof.
  intros Hbelow Hlen Hsome. unfold generate_password.
  assert (characters_of u l d s ≠ []) as Hne.
  { rewrite characters_of_nil. by intros (-> & -> & -> & ->). }
  rewrite decide_False by lia. cbv zeta.
  rewrite decide_False by done. by apply choices_ok.
Qed.

Lemma generate_password_rejects len u l d s (g : G) :
  ((len ≤ 0)%Z →
   generate_password randbelow len u l d s g = ValueError LengthNotPositive)
  ∧ ((0 < len)%Z → u || l || d || s = false →
     generate_password randbelow len u l d s g = ValueError NoCharacterType).
Proof.
  unfold generate_password. split.
  - intros Hlen. by rewrite decide_True.
  - intros Hlen Hnone. rewrite decide_False by lia. cbv zeta.
    rewrite decide_True; [done|]. by destruct u, l, d, s.
Qed.

Lemma main_loop_ok (a : args) :
  (∀ k g, 0 < k → (randbelow k g).1 < k) →
  (0 < args_length a)%Z →
  negb (args_no_uppercase a) || negb (args_no_lowercase a)
    || negb (args_no_digits a) || negb (args_no_special a) = true →
  ∀ n printed (g : G), ∃ pws g',
    main_loop randbelow n a printed g = (Run (printed ++ pws) [] Finished, g')
    ∧ length pws = n
    ∧ Forall (well_formed (args_length a) (negb (args_no_uppercase a))
                (negb (args_no_lowercase a)) (negb (args_no_digits a))
                (negb (args_no_special a))) pws.
Proof.
  intros Hbelow Hlen Hsome. induction n as [|n IH]; intros printed g.
  - exists [], g. by rewrite app_nil_r.
  - cbn [main_loop].
    destruct (generate_password_returns _ _ _ _ _ g Hbelow Hlen Hsome)
      as (pw & g1 & Hpw).
    rewrite Hpw. destruct (IH (printed ++ [pw]) g1) as (pws & g2 & -> & Hn & Hall).
    exists (pw :: pws), g2. split; [by rewrite <- (assoc_L (++))|].
    split; [by rewrite <- Hn|]. constructor; [|done].
    by eapply generate_password_in.
Qed.

Lemma replay_choices seq target :
  Forall (λ c, c ∈ seq) target →
  ∃ tape, length tape = length target ∧ Forall (λ i, i < length seq) tape ∧
    ∀ rest, choices replay (length target) seq (tape ++ rest)
            = Ok (target, rest).
Proof.
  induction 1 as [|c target Hc _ (tape & Hlen & Hlt & IH)].
  - exists []. by repeat split.
  - apply list_elem_of_lookup_1 in Hc as [i Hi].
    exists (i :: tape). split; [simpl; by rewrite Hlen|].
    split. { constructor; [by eapply lookup_lt_Some|done]. }
    intros rest. cbn [length choices]. unfold choice.
    rewrite decide_False; [|by intros ->].
    cbn [replay app]. by rewrite Hi, IH.
Qed.
End PasswordLoop.

(** ** What generate_password and main of password_generator.py do *)

(** X14, [generate_password] of password_generator.py: a [ValueError] is
    raised exactly in two cases, whatever the random source does: the
    length is not positive (checked first, so also when no character type
    is selected), or the length is positive and no character type is
    selected. *)
Theorem generate_password_value_errors {G : Type}
    (randbelow : nat → G → nat * G) (len : Z) (u l d s : bool) (g : G)
    (e : PasswordGenerator.value_error) :
  PasswordGenerator.generate_password randbelow len u l d s g
    = PasswordGenerator.ValueError e
  ↔ (e = PasswordGenerator.LengthNotPositive ∧ (len ≤ 0)%Z)
    ∨ (e = PasswordGenerator.NoCharacterType ∧ (0 < len)%Z
       ∧ u = false ∧ l = false ∧ d = false ∧ s = false).
Proof.
  unfold PasswordGenerator.generate_password.
  destruct (decide (len ≤ 0)%Z) as [Hlen|Hlen].
  { split; [intros [= <-]; by left|]. intros [[-> _]|(_ & ? & _)]; [done|lia]. }
  cbv zeta.
  destruct (decide (PasswordGenerator.characters_of u l d s = [])) as [Hc|Hc].
  - apply characters_of_nil in Hc. split.
    + intros [= <-]. right. split; [done|]. split; [lia|done].
    + intros [[_ ?]|[-> _]]; [lia|done].
  - split.
    + intros Hrun. by apply choices_no_value_error in Hrun.
    + intros [[_ ?]|(_ & _ & Hnone)]; [lia|]. by apply characters_of_nil in Hnone.
Qed.

(** X15, [generate_password]: with a random source that keeps the contract
    of [secrets] (a draw below [k] is less than [k]), a positive length and
    at least one selected character type, a password is returned; it has
    exactly [length] characters and every one of them is in the selected
    character set. *)
Theorem generate_password_ok {G : Type} (randbelow : nat → G → nat * G)
    (len : Z) (u l d s : bool) (g : G) :
  (∀ k g, 0 < k → (randbelow k g).1 < k) →
  (0 < len)%Z → u || l || d || s = true →
  ∃ pw g',
    PasswordGenerator.generate_password randbelow len u l d s g
      = PasswordGenerator.Ok (pw, g')
    ∧ length pw = Z.to_nat len
    ∧ Forall (λ c, c ∈ PasswordGenerator.characters_of u l d s) pw.
Proof.
  intros Hbelow Hlen Hsome.
  destruct (generate_password_returns randbelow len u l d s g Hbelow Hlen Hsome)
    as (pw & g' & Hrun).
  exists pw, g'. split; [done|]. by eapply generate_password_in.
Qed.

Lemma generate_password_ok_witness :
  ∃ pw g',
    PasswordGenerator.generate_password (λ k g, (g mod k, S g)) 6
      true false true false 7 = PasswordGenerator.Ok (pw, g')
    ∧ length pw = Z.to_nat 6
    ∧ Forall (λ c, c ∈ PasswordGenerator.characters_of true false true false)
        pw.
Proof.
  apply (generate_password_ok (λ k g, (g mod k, S g)) 6 true false true false 7).
  - intros k g Hk. simpl. apply Nat.mod_upper_bound. lia.
  - lia.
  - reflexivity.
Defined.

(** X16, [generate_password]: a returned password never contains a
    character of a type that was not selected: an uppercase letter only
    if [use_uppercase], a lowercase letter only if [use_lowercase], a digit
    only if [use_digits], a special character only if [use_special]. *)
Theorem generate_password_respects_types {G : Type}
    (randbelow : nat → G → nat * G) (len : Z) (u l d s : bool) (g g' : G)
    (pw : list ascii) (c : ascii) :
  PasswordGenerator.generate_password randbelow len u l d s g
    = PasswordGenerator.Ok (pw, g') →
  c ∈ pw →
  (c ∈ PasswordGenerator.ascii_uppercase → u = true)
  ∧ (c ∈ PasswordGenerator.ascii_lowercase → l = true)
  ∧ (c ∈ PasswordGenerator.digits → d = true)
  ∧ (c ∈ PasswordGenerator.special → s = true).
Proof.
  intros Hrun Hc. apply generate_password_in in Hrun as [_ Hall].
  rewrite Forall_forall in Hall. by apply characters_of_types, Hall.
Qed.

Lemma generate_password_respects_types_witness :
  (("8"%char ∈ PasswordGenerator.ascii_uppercase → false = true)
   ∧ ("8"%char ∈ PasswordGenerator.ascii_lowercase → false = true)
   ∧ ("8"%char ∈ PasswordGenerator.digits → true = true)
   ∧ ("8"%char ∈ PasswordGenerator.special → true = true)).
Proof.
  apply (generate_password_respects_types PasswordGenerator.replay 3
           false false true true [8; 10; 0] []
           ["8"%char; "!"%char; "0"%char] "8"%char).
  - reflexivity.
  - by left.
Defined.

(** X17, [generate_password]: nothing beyond length and character set is
    guaranteed.  Every non-empty string over the selected character set is
    returned for some sequence of draws, each of them within the range
    asked for; so a password need not contain a character of every
    selected type. *)
Theorem generate_password_reaches_all (u l d s : bool)
    (target : list ascii) :
  target ≠ [] →
  Forall (λ c, c ∈ PasswordGenerator.characters_of u l d s) target →
  ∃ tape,
    Forall (λ i, i < length (PasswordGenerator.characters_of u l d s)) tape
    ∧ PasswordGenerator.generate_password PasswordGenerator.replay
        (Z.of_nat (length target)) u l d s tape
      = PasswordGenerator.Ok (target, []).
Proof.
  intros Hne Hall.
  destruct (replay_choices _ _ Hall) as (tape & _ & Hlt & Hrun).
  exists tape. split; [done|].
  unfold PasswordGenerator.generate_password.
  rewrite decide_False; [|destruct target; [done|simpl; lia]].
  cbv zeta. rewrite decide_False.
  - rewrite Nat2Z.id. specialize (Hrun []). by rewrite app_nil_r in Hrun.
  - intros Hnil. rewrite Hnil in Hall. destruct target as [|c ?]; [done|].
    apply Forall_cons in Hall as [Hc _]. by apply elem_of_nil in Hc.
Qed.

Lemma generate_password_reaches_all_witness :
  ∃ tape,
    Forall (λ i, i < length
              (PasswordGenerator.characters_of true true true true)) tape
    ∧ PasswordGenerator.generate_password PasswordGenerator.replay
        (Z.of_nat (length ["a"%char; "a"%char; "a"%char])) true true true true
        tape
      = PasswordGenerator.Ok (["a"%char; "a"%char; "a"%char], []).
Proof.
  apply (generate_password_reaches_all true true true true
           ["a"%char; "a"%char; "a"%char]).
  - done.
  - repeat constructor; by compute_done.
Defined.

(** X18, [main] of password_generator.py with arguments that
    [generate_password] rejects (a length that is not positive, or every
    character type switched off): if the count is not positive the loop
    does not run, nothing is printed and the program ends normally; else
    the first call fails, nothing is written to the standard output, one
    error message goes to the standard error and the exit code is 1. *)
Theorem main_invalid_arguments {G : Type} (randbelow : nat → G → nat * G)
    (a : PasswordGenerator.args) (g : G) :
  (PasswordGenerator.args_length a ≤ 0)%Z
  ∨ (PasswordGenerator.args_no_uppercase a = true
     ∧ PasswordGenerator.args_no_lowercase a = true
     ∧ PasswordGenerator.args_no_digits a = true
     ∧ PasswordGenerator.args_no_special a = true) →
  PasswordGenerator.main randbelow a g
  = if decide (PasswordGenerator.args_count a ≤ 0)%Z
    then (PasswordGenerator.Run [] [] PasswordGenerator.Finished, g)
    else (PasswordGenerator.Run []
            [if decide (PasswordGenerator.args_length a ≤ 0)%Z
             then PasswordGenerator.LengthNotPositive
             else PasswordGenerator.NoCharacterType]
            (PasswordGenerator.Exit 1), g).
Proof.
  intros Hbad. unfold PasswordGenerator.main.
  destruct (decide (PasswordGenerator.args_count a ≤ 0)%Z) as [Hn|Hn].
  { by rewrite Z2Nat.nonpos. }
  destruct (Z.to_nat (PasswordGenerator.args_count a)) as [|n] eqn:Hcount;
    [lia|].
  cbn [PasswordGenerator.main_loop].
  destruct (decide (PasswordGenerator.args_length a ≤ 0)%Z) as [Hlen|Hlen].
  - destruct (generate_password_rejects randbelow
                (PasswordGenerator.args_length a)
                (negb (PasswordGenerator.args_no_uppercase a))
                (negb (PasswordGenerator.args_no_lowercase a))
                (negb (PasswordGenerator.args_no_digits a))
                (negb (PasswordGenerator.args_no_special a)) g) as [H _].
    by rewrite (H Hlen).
  - destruct Hbad as [?|(Hu & Hl & Hd & Hs)]; [lia|].
    destruct (generate_password_rejects randbelow
                (PasswordGenerator.args_length a)
                (negb (PasswordGenerator.args_no_uppercase a))
                (negb (PasswordGenerator.args_no_lowercase a))
                (negb (PasswordGenerator.args_no_digits a))
                (negb (PasswordGenerator.args_no_special a)) g) as [_ H].
    rewrite H; [done|lia|by rewrite Hu, Hl, Hd, Hs].
Qed.

Lemma main_invalid_arguments_witness :
  PasswordGenerator.main PasswordGenerator.replay
    (PasswordGenerator.Args 0 false false false false 3) [1; 2]
  = (PasswordGenerator.Run [] [PasswordGenerator.LengthNotPositive]
       (PasswordGenerator.Exit 1), [1; 2]).
Proof.
  apply (main_invalid_arguments PasswordGenerator.replay
           (PasswordGenerator.Args 0 false false false false 3) [1; 2]).
  left. simpl. lia.
Defined.

(** X19, [main] of password_generator.py with valid arguments and a random
    source that keeps the contract of [secrets]: exactly [count] passwords
    are printed (none if the count is not positive), each of the requested
    length and over the selected character set; nothing goes to the
    standard error and the program ends normally. *)
Theorem main_prints_count_passwords {G : Type}
    (randbelow : nat → G → nat * G) (a : PasswordGenerator.args) (g : G) :
  (∀ k g, 0 < k → (randbelow k g).1 < k) →
  (0 < PasswordGenerator.args_length a)%Z →
  negb (PasswordGenerator.args_no_uppercase a)
    || negb (PasswordGenerator.args_no_lowercase a)
    || negb (PasswordGenerator.args_no_digits a)
    || negb (PasswordGenerator.args_no_special a) = true →
  ∃ pws g',
    PasswordGenerator.main randbelow a g
      = (PasswordGenerator.Run pws [] PasswordGenerator.Finished, g')
    ∧ length pws = Z.to_nat (PasswordGenerator.args_count a)
    ∧ Forall (λ pw,
        length pw = Z.to_nat (PasswordGenerator.args_length a)
        ∧ Forall (λ c, c ∈ PasswordGenerator.characters_of
                         (negb (PasswordGenerator.args_no_uppercase a))
                         (negb (PasswordGenerator.args_no_lowercase a))
                         (negb (PasswordGenerator.args_no_digits a))
                         (negb (PasswordGenerator.args_no_special a))) pw)
        pws.
Proof.
  intros Hbelow Hlen Hsome.
  destruct (main_loop_ok randbelow a Hbelow Hlen Hsome
              (Z.to_nat (PasswordGenerator.args_count a)) [] g)
    as (pws & g' & Hrun & Hn & Hall).
  by exists pws, g'.
Qed.

Lemma main_prints_count_passwords_witness :
  ∃ pws g',
    PasswordGenerator.main (λ k g, (g mod k, S g))
      (PasswordGenerator.Args 5 false true false true 2) 11
      = (PasswordGenerator.Run pws [] PasswordGenerator.Finished, g')
    ∧ length pws = Z.to_nat 2
    ∧ Forall (λ pw,
        length pw = Z.to_nat 5
        ∧ Forall (λ c, c ∈ PasswordGenerator.characters_of
                         true false true false) pw) pws.
Proof.
  apply (main_prints_count_passwords (λ k g, (g mod k, S g))
           (PasswordGenerator.Args 5 false true false true 2) 11).
  - intros k g Hk. simpl. apply Nat.mod_upper_bound. lia.
  - simpl. lia.
  - reflexivity.
Defined.
